(** * youtube-learning-app: the React component of frontend/src/App.js

    A shallow embedding of [App] (video identifier extraction, submission,
    the polling effect and the timestamp seek) and the properties of its
    specification.

    Conventions of the embedding.
    - A JavaScript string is the list of its UTF-16 code units.
    - A JavaScript number is a binary64 float (Rocq's primitive floats);
      array lengths, indices and sequence numbers are natural numbers.
    - [null] and [undefined] are both [None]; they are only ever tested for
      truthiness by the component.
    - A handler runs to completion, and React commits the resulting render
      (running the effect when its dependencies changed), before the next
      event is processed. *)

From Stdlib Require Import String Ascii.
From Stdlib Require Import List NArith ZArith Bool Arith Lia.
From Stdlib Require Import Floats Uint63.
Import ListNotations.

Set Implicit Arguments.

(** ** JavaScript strings *)

Definition code_unit := N.
Definition jsstring := list code_unit.

(** A string literal of the source, as code units. *)
Definition js (s : string) : jsstring :=
  map N_of_ascii (list_ascii_of_string s).

(** Truthiness of a string value that may be null: [null] and [''] are falsy. *)
Definition truthy (v : option jsstring) : bool :=
  match v with
  | Some (_ :: _) => true
  | _ => false
  end.

Fixpoint jsstring_eqb (a b : jsstring) : bool :=
  match a, b with
  | [], [] => true
  | x :: a', y :: b' => N.eqb x y && jsstring_eqb a' b'
  | _, _ => false
  end.

Fixpoint take_while (p : code_unit -> bool) (s : jsstring) : jsstring :=
  match s with
  | c :: s' => if p c then c :: take_while p s' else []
  | [] => []
  end.

Fixpoint drop_while (p : code_unit -> bool) (s : jsstring) : jsstring :=
  match s with
  | c :: s' => if p c then drop_while p s' else s
  | [] => []
  end.

(** Outcome of evaluating an expression: a value, or a thrown exception. *)
Inductive completion (A : Type) : Type :=
| Normal (a : A)
| Throw.
Arguments Throw {A}.

(** ** Regular expressions

    The fragment of ECMAScript patterns used by [extractVideoId], with the
    backtracking semantics of the language: alternatives are tried left to
    right, a star is greedy and gives characters back one at a time. *)
Module RegExp.

Inductive atom : Type :=
| Lit (c : code_unit)            (* a pattern character *)
| Dot                            (* .  : anything but a line terminator *)
| Word                           (* \w : [A-Za-z0-9_] *)
| NoneOf (l : list code_unit).   (* [^...] *)

Definition line_terminator (c : code_unit) : bool :=
  (N.eqb c 10 || N.eqb c 13 || N.eqb c 8232 || N.eqb c 8233)%bool.

Definition word_char (c : code_unit) : bool :=
  ((N.leb 97 c && N.leb c 122) || (N.leb 65 c && N.leb c 90)
   || (N.leb 48 c && N.leb c 57) || N.eqb c 95)%bool.

Definition atom_matches (a : atom) (c : code_unit) : bool :=
  match a with
  | Lit d => N.eqb d c
  | Dot => negb (line_terminator c)
  | Word => word_char c
  | NoneOf l => negb (existsb (N.eqb c) l)
  end.

Inductive regex : Type :=
| Eps
| Atom (a : atom)
| Bol                            (* ^ without the m flag *)
| Cat (r1 r2 : regex)
| Alt (r1 r2 : regex)
| Star (a : atom)                (* a*, greedy, over a one-character atom *)
| Group (n : nat) (r : regex).   (* the n-th capturing parentheses *)

(** Matcher state: the index reached, the input left, the captures so far. *)
Record mstate : Type := MState {
  pos : nat;
  rest : jsstring;
  caps : list (nat * jsstring)
}.

Definition cont := mstate -> option mstate.

Fixpoint star (p : code_unit -> bool) (k : cont) (i : nat) (s : jsstring)
  (c : list (nat * jsstring)) : option mstate :=
  match s with
  | x :: s' =>
      if p x then
        match star p k (S i) s' c with
        | Some y => Some y
        | None => k (MState i s c)
        end
      else k (MState i s c)
  | [] => k (MState i [] c)
  end.

Fixpoint m (r : regex) (k : cont) (x : mstate) : option mstate :=
  match r with
  | Eps => k x
  | Atom a =>
      match rest x with
      | c :: s' => if atom_matches a c then k (MState (S (pos x)) s' (caps x)) else None
      | [] => None
      end
  | Bol => if Nat.eqb (pos x) 0 then k x else None
  | Cat r1 r2 => m r1 (m r2 k) x
  | Alt r1 r2 =>
      match m r1 k x with
      | Some y => Some y
      | None => m r2 k x
      end
  | Star a => star (atom_matches a) k (pos x) (rest x) (caps x)
  | Group n r =>
      m r (fun y => k (MState (pos y) (rest y)
                         ((n, firstn (pos y - pos x) (rest x)) :: caps y))) x
  end.

(** [RegExp.prototype.exec] from index 0 without flags: the first start
    index at which the pattern matches. *)
Fixpoint search (r : regex) (i : nat) (s : jsstring) : option mstate :=
  match m r Some (MState i s []) with
  | Some y => Some y
  | None =>
      match s with
      | [] => None
      | _ :: s' => search r (S i) s'
      end
  end.

Definition exec (r : regex) (s : jsstring) : option mstate := search r 0 s.

(** [match[n]]: the text of the n-th group, [None] when it is undefined. *)
Fixpoint group (n : nat) (c : list (nat * jsstring)) : option jsstring :=
  match c with
  | [] => None
  | (j, t) :: c' => if Nat.eqb j n then Some t else group n c'
  end.

Fixpoint atoms (l : list atom) : regex :=
  match l with
  | [] => Eps
  | a :: l' => Cat (Atom a) (atoms l')
  end.

(** A run of pattern characters. *)
Definition lit (s : string) : list atom := map Lit (js s).

(** Does the input start with one character for each atom of the list? *)
Fixpoint starts (l : list atom) (s : jsstring) : bool :=
  match l, s with
  | [], _ => true
  | a :: l', c :: s' => atom_matches a c && starts l' s'
  | _ :: _, [] => false
  end.

End RegExp.
Import RegExp.

(** ** extractVideoId *)

Definition youtu_be : list atom := lit "youtu" ++ [Dot] ++ lit "be/".
Definition v_slash : list atom := lit "v/".
Definition u_w_slash : list atom := lit "u/" ++ [Word] ++ lit "/".
Definition embed_slash : list atom := lit "embed/".
Definition watch_v : list atom := lit "watch?v=".
Definition amp_v : list atom := lit "&v=".

(** The first group: "(youtu.be\/|v\/|u\/\w\/|embed\/|watch\?v=|&v=)" *)
Definition shapes : regex :=
  Alt (atoms youtu_be) (Alt (atoms v_slash) (Alt (atoms u_w_slash)
    (Alt (atoms embed_slash) (Alt (atoms watch_v) (atoms amp_v))))).

(** The class "[^#&?]" *)
Definition token_class : atom := NoneOf (js "#&?").

(** The pattern of the source: the start of the input, any characters, the
    first group, a second group of any number of characters of the class,
    and any characters again. *)
Definition regExp : regex :=
  Cat Bol (Cat (Star Dot) (Cat (Group 1 shapes)
    (Cat (Group 2 (Star token_class)) (Star Dot)))).

Definition extractVideoId (url : jsstring) : completion (option jsstring) :=
  match exec regExp url with
  | None => Normal None
  | Some y =>
      match group 2 (caps y) with
      | None => Throw                        (* undefined.length *)
      | Some t => if Nat.eqb (length t) 11 then Normal (Some t) else Normal None
      end
  end.

(** What the pattern does once its leading "^.*" has chosen where the first
    group starts. *)
Definition after_prefix : cont :=
  m (Cat (Group 1 shapes) (Cat (Group 2 (Star token_class)) (Star Dot))) Some.

(** The length of the shape of the first group that the input starts
    with, if it starts with one. *)
Definition shape_length (s : jsstring) : option nat :=
  if starts youtu_be s then Some (length youtu_be)
  else if starts v_slash s then Some (length v_slash)
  else if starts u_w_slash s then Some (length u_w_slash)
  else if starts embed_slash s then Some (length embed_slash)
  else if starts watch_v s then Some (length watch_v)
  else if starts amp_v s then Some (length amp_v)
  else None.

(** The recognized video-link shapes, as strings. In the first one the dot
    of the pattern stands for any character of a line. *)
Inductive shape : jsstring -> Prop :=
| shape_youtu_be (c : code_unit) :
    line_terminator c = false -> shape (js "youtu" ++ c :: js "be/")
| shape_v : shape (js "v/")
| shape_u (c : code_unit) :
    word_char c = true -> shape (js "u/" ++ c :: js "/")
| shape_embed : shape (js "embed/")
| shape_watch : shape (js "watch?v=")
| shape_amp_v : shape (js "&v=").

(** The token an input starts with: its longest prefix free of '#', '&'
    and '?'. *)
Definition token_of (s : jsstring) : jsstring :=
  take_while (atom_matches token_class) s.

(** A string free of line terminators. *)
Definition one_line (s : jsstring) : Prop :=
  Forall (fun c => line_terminator c = false) s.

(** The reading of the specification: [url] has a recognized shape followed
    by the token [tok]. *)
Definition shape_then_token (url tok : jsstring) : Prop :=
  exists before d after,
    url = before ++ d ++ after /\ shape d /\ token_of after = tok.

(** [tok] follows the last recognized shape that starts on the first line
    of [url]. *)
Definition last_shape_then_token (url tok : jsstring) : Prop :=
  exists before d after,
    url = before ++ d ++ after /\ one_line before /\ shape d /\
    token_of after = tok /\
    forall before' d' after',
      url = before' ++ d' ++ after' -> one_line before' -> shape d' ->
      length before' <= length before.

(** No recognized shape starts on the first line of [url]. *)
Definition no_shape (url : jsstring) : Prop :=
  forall before d after,
    url = before ++ d ++ after -> one_line before -> ~ shape d.

(** What follows the last shape starting on the first line of the input. *)
Fixpoint after_last_shape (s : jsstring) : option jsstring :=
  let here := option_map (fun n => skipn n s) (shape_length s) in
  match s with
  | c :: s' =>
      if line_terminator c then here
      else
        match after_last_shape s' with
        | Some a => Some a
        | None => here
        end
  | [] => here
  end.

(** ** Numbers *)

Definition float_of_Z (z : Z) : float :=
  if (z <? 0)%Z then (- of_uint63 (Uint63.of_Z (- z)))%float
  else of_uint63 (Uint63.of_Z z).

(** [Math.round]: the integer nearest to [x], a tie going towards +infinity;
    NaN, the infinities and the zeros are returned as they are, and a
    result of zero keeps the sign of [x]. *)
Definition Math_round (x : float) : float :=
  match Prim2SF x with
  | S754_finite s mant e =>
      if (0 <=? e)%Z then x
      else
        let d := (2 ^ (- e))%Z in
        let n := (((if s then Z.neg mant else Z.pos mant) * 2 + d) / (2 * d))%Z in
        if (n =? 0)%Z then (if s then (- 0)%float else 0%float) else float_of_Z n
  | _ => x
  end.

Definition digit (c : code_unit) : option Z :=
  if (N.leb 48 c && N.leb c 57)%bool then Some (Z.of_N c - 48)%Z else None.

Fixpoint decimal (acc : Z) (s : jsstring) : option Z :=
  match s with
  | [] => Some acc
  | c :: s' =>
      match digit c with
      | Some d => decimal (10 * acc + d)%Z s'
      | None => None
      end
  end.

(** [Number(s)] on the strings this model covers: the empty string (0) and
    runs of at most 15 decimal digits, whose value a binary64 holds exactly.
    [None] stands for a string outside this fragment (signs, fractions,
    exponents, blanks, other text), whose conversion is not modelled. *)
Definition Number (s : jsstring) : option float :=
  match s with
  | [] => Some 0%float
  | _ :: _ => if Nat.leb (length s) 15 then option_map float_of_Z (decimal 0 s) else None
  end.

(** [s.split(sep)] for a one-character separator. *)
Fixpoint split (sep : code_unit) (s : jsstring) : list jsstring :=
  match s with
  | [] => [[]]
  | c :: s' =>
      if N.eqb c sep then [] :: split sep s'
      else
        match split sep s' with
        | h :: t => (c :: h) :: t
        | [] => [[c]]
        end
  end.

(** ** Component state *)

(** A sentence object as the transcript endpoint sends it. *)
Record server_sentence : Type := {
  key : jsstring;
  start_time : jsstring;
  english : jsstring;
  pronunciation_hindi : jsstring;
  translation_hindi : jsstring
}.

(** [{...sentence, sentence_number}]. *)
Record sentence : Type := {
  fields : server_sentence;
  sentence_number : nat
}.

Record state : Type := {
  url : jsstring;
  taskId : option jsstring;
  sentences : list sentence;
  lastKey : option jsstring;
  isProcessing : bool;
  progress : float
}.

(** The [useState] initial values. *)
Definition initial_state : state :=
  {| url := []; taskId := None; sentences := []; lastKey := None;
     isProcessing := false; progress := 0%float |}.

(** ** Responses of the backend *)

Inductive fetched (A : Type) : Type :=
| Resolved (a : A)     (* the fetch and its [json()] resolved with this object *)
| Rejected.            (* a network error, a body that does not parse, or a
                          value whose properties cannot be read: the awaited
                          expression or the first use of its result throws *)
Arguments Rejected {A}.

Record start_response : Type := { task_id : option jsstring }.

Record status_response : Type := {
  status : jsstring;
  processed_chunks : float;
  total_chunks : float
}.

Record transcript_response : Type := {
  data_sentences : option (list server_sentence);   (* [None]: no such property *)
  data_last_key : option jsstring
}.

(** ** The world around the component: timers, console, network, player *)

Inductive effect : Type :=
| Fetch (resource : jsstring) (post : option jsstring)   (* [post]: the url of a POST body *)
| ConsoleError (label : jsstring)
| SetInterval (id : nat) (delay : nat)
| ClearInterval (id : nat)
| SeekTo (seconds : float) (allowSeekAhead : bool).

(** A live interval timer with what its callback closed over. *)
Record interval : Type := {
  interval_id : nat;
  delay : nat;
  cl_taskId : jsstring;
  cl_lastKey : option jsstring;
  cl_sentences : list sentence
}.

Definition deps : Type := (option jsstring * option jsstring * nat)%type.

Record world : Type := {
  st : state;
  live : option interval;                  (* the interval that will fire next *)
  effect_run : option (deps * option nat);  (* last run of the effect: its
                                               dependencies and the interval
                                               its cleanup clears *)
  next_id : nat;
  trace : list effect
}.

Definition with_st (f : state -> state) (w : world) : world :=
  {| st := f (st w); live := live w; effect_run := effect_run w;
     next_id := next_id w; trace := trace w |}.

Definition emit (e : effect) (w : world) : world :=
  {| st := st w; live := live w; effect_run := effect_run w;
     next_id := next_id w; trace := trace w ++ [e] |}.

Definition clearInterval (id : nat) (w : world) : world :=
  {| st := st w;
     live := match live w with
             | Some t => if Nat.eqb (interval_id t) id then None else Some t
             | None => None
             end;
     effect_run := effect_run w;
     next_id := next_id w;
     trace := trace w ++ [ClearInterval id] |}.

(** An asynchronous function body: it changes the world and either returns
    or throws; what it did before throwing stays done. *)
Definition action (A : Type) : Type := world -> completion A * world.

Definition ret {A : Type} (a : A) : action A := fun w => (Normal a, w).

Definition bind {A B : Type} (a : action A) (f : A -> action B) : action B :=
  fun w =>
    match a w with
    | (Normal x, w') => f x w'
    | (Throw, w') => (Throw, w')
    end.

Notation "x <- a ;; b" := (bind a (fun x => b))
  (at level 61, a at next level, right associativity).
Notation "a ;; b" := (bind a (fun _ => b))
  (at level 61, right associativity).

Definition lift (f : world -> world) : action unit := fun w => (Normal tt, f w).

Definition when (b : bool) (a : action unit) : action unit :=
  if b then a else ret tt.

(** [try { body } catch (error) { handler }]. *)
Definition try_catch (body handler : action unit) : world -> world :=
  fun w =>
    match body w with
    | (Normal _, w') => w'
    | (Throw, w') => snd (handler w')
    end.

(** [await (await fetch(resource)).json()] with the outcome [r]. *)
Definition fetch_json {A : Type} (resource : jsstring) (post : option jsstring)
  (r : fetched A) : action A :=
  fun w =>
    (match r with Resolved a => Normal a | Rejected => Throw end,
     emit (Fetch resource post) w).

Definition console_error (label : jsstring) : action unit :=
  lift (emit (ConsoleError label)).

Definition setUrl (u : jsstring) : action unit :=
  lift (with_st (fun s =>
    {| url := u; taskId := taskId s; sentences := sentences s;
       lastKey := lastKey s; isProcessing := isProcessing s; progress := progress s |})).

Definition setTaskId (t : option jsstring) : action unit :=
  lift (with_st (fun s =>
    {| url := url s; taskId := t; sentences := sentences s;
       lastKey := lastKey s; isProcessing := isProcessing s; progress := progress s |})).

(** [setSentences(prev => f(prev))]. *)
Definition setSentences (f : list sentence -> list sentence) : action unit :=
  lift (with_st (fun s =>
    {| url := url s; taskId := taskId s; sentences := f (sentences s);
       lastKey := lastKey s; isProcessing := isProcessing s; progress := progress s |})).

Definition setLastKey (k : option jsstring) : action unit :=
  lift (with_st (fun s =>
    {| url := url s; taskId := taskId s; sentences := sentences s;
       lastKey := k; isProcessing := isProcessing s; progress := progress s |})).

Definition setIsProcessing (b : bool) : action unit :=
  lift (with_st (fun s =>
    {| url := url s; taskId := taskId s; sentences := sentences s;
       lastKey := lastKey s; isProcessing := b; progress := progress s |})).

Definition setProgress (p : float) : action unit :=
  lift (with_st (fun s =>
    {| url := url s; taskId := taskId s; sentences := sentences s;
       lastKey := lastKey s; isProcessing := isProcessing s; progress := p |})).

(** ** startProcessing *)

Definition option_jsstring_eqb (a b : option jsstring) : bool :=
  match a, b with
  | Some x, Some y => jsstring_eqb x y
  | None, None => true
  | _, _ => false
  end.

Definition deps_of (s : state) : deps := (taskId s, lastKey s, length (sentences s)).

(** Comparison of two dependency arrays, entry by entry. *)
Definition deps_eqb (a b : deps) : bool :=
  let '(t1, k1, n1) := a in
  let '(t2, k2, n2) := b in
  (option_jsstring_eqb t1 t2 && option_jsstring_eqb k1 k2 && Nat.eqb n1 n2)%bool.

(** The function given to [useEffect]: no timer without a task handle,
    otherwise a 2500 ms interval whose callback closes over this render's
    [taskId], [lastKey] and [sentences]. *)
Definition effect_body (w : world) : world :=
  match taskId (st w) with
  | Some (c :: tid) =>
      {| st := st w;
         live := Some {| interval_id := next_id w; delay := 2500;
                         cl_taskId := c :: tid; cl_lastKey := lastKey (st w);
                         cl_sentences := sentences (st w) |};
         effect_run := Some (deps_of (st w), Some (next_id w));
         next_id := S (next_id w);
         trace := trace w ++ [SetInterval (next_id w) 2500] |}
  | _ =>
      {| st := st w; live := live w;
         effect_run := Some (deps_of (st w), None);
         next_id := next_id w; trace := trace w |}
  end.

(** The cleanup returned by the previous run of the effect. *)
Definition cleanup (w : world) : world :=
  match effect_run w with
  | Some (_, Some id) => clearInterval id w
  | _ => w
  end.

(** React commits a render: the effect runs on mount, and again (after the
    cleanup of its previous run) when [taskId], [lastKey] or
    [sentences.length] changed. *)
Definition commit (w : world) : world :=
  match effect_run w with
  | None => effect_body w
  | Some (d, _) => if deps_eqb d (deps_of (st w)) then w else effect_body (cleanup w)
  end.

Definition start_processing_url : jsstring := js "/api/start_processing".

(** [startProcessing], with the outcome [r] of its request. The three
    updates before the request are committed while the request is awaited. *)
Definition startProcessing (r : fetched start_response) (w : world) : world :=
  match url (st w) with
  | [] => w
  | _ :: _ =>
      let w1 :=
        commit (snd ((setIsProcessing true ;; setSentences (fun _ => []) ;;
                      setLastKey None) w)) in
      commit (try_catch
                (data <- fetch_json start_processing_url (Some (url (st w))) r ;;
                 setTaskId (task_id data))
                (console_error (js "Failed to start processing:") ;;
                 setIsProcessing false)
                w1)
  end.

(** ** The polling effect *)

Fixpoint array_map_from {A B : Type} (f : A -> nat -> B) (i : nat) (l : list A) : list B :=
  match l with
  | [] => []
  | x :: l' => f x i :: array_map_from f (S i) l'
  end.

(** [l.map((x, i) => f(x, i))]. *)
Definition array_map {A B : Type} (f : A -> nat -> B) (l : list A) : list B :=
  array_map_from f 0 l.

Definition task_status_url (tid : jsstring) : jsstring :=
  js "/api/task_status/" ++ tid.

Definition transcript_url (tid : jsstring) (k : option jsstring) : jsstring :=
  match k with
  | Some (c :: k') => js "/api/transcript/" ++ tid ++ js "?last_key=" ++ c :: k'
  | _ => js "/api/transcript/" ++ tid
  end.

(** The body of the [try] block of the interval callback of timer [t], with
    the outcomes [rs] and [rt] of its two requests. *)
Definition poll_body (t : interval) (rs : fetched status_response)
  (rt : fetched transcript_response) : action unit :=
  status_ <- fetch_json (task_status_url (cl_taskId t)) None rs ;;
  when (0 <? total_chunks status_)%float
    (let newProgress :=
       Math_round (processed_chunks status_ / total_chunks status_ * 100)%float in
     setProgress newProgress) ;;
  data <- fetch_json (transcript_url (cl_taskId t) (cl_lastKey t)) None rt ;;
  match data_sentences data with
  | Some (s0 :: more) =>
      let startNum := length (cl_sentences t) + 1 in
      let newSentences :=
        array_map (fun sentence i =>
                     {| fields := sentence; sentence_number := startNum + i |})
                  (s0 :: more) in
      setSentences (fun prev => prev ++ newSentences) ;;
      setLastKey (data_last_key data)
  | _ => ret tt
  end ;;
  when (jsstring_eqb (status status_) (js "completed"))
    (lift (clearInterval (interval_id t)) ;; setIsProcessing false).

(** The [catch] block of the callback. *)
Definition poll_catch : action unit := console_error (js "Polling error:").

Definition pollInterval (t : interval) (rs : fetched status_response)
  (rt : fetched transcript_response) : world -> world :=
  try_catch (poll_body t rs rt) poll_catch.

(** ** seekToTime *)

(** The src of the iframe for a video identifier. *)
Definition embed_src (videoId : jsstring) : jsstring :=
  js "https://www.youtube.com/embed/" ++ videoId.

(** What a ref of the component can hold: the DOM element of the iframe. *)
Inductive dom_element : Type :=
| HTMLIFrameElement (src : jsstring).

(** [playerRef.current]: the ref is on the iframe itself, which is rendered
    exactly when [videoId] is not null; no player object is made for it. *)
Definition playerRef_current (w : world) : option dom_element :=
  match extractVideoId (url (st w)) with
  | Normal (Some videoId) => Some (HTMLIFrameElement (embed_src videoId))
  | _ => None
  end.

(** The [seekTo] property of an element, as the effect a call of it would
    have: an iframe element has no such property. *)
Definition seekTo_property (e : dom_element) : option (float -> bool -> effect) :=
  match e with
  | HTMLIFrameElement _ => None
  end.

(** An element of [timeStr.split(':').map(Number)] as an operand: a missing
    element is [undefined], which arithmetic turns into NaN. *)
Definition operand (parts : list jsstring) (i : nat) : option float :=
  match nth_error parts i with
  | Some p => Number p
  | None => Some nan
  end.

(** [totalSeconds] of [seekToTime]; [None] when a field of [timeStr] is
    outside the strings [Number] is modelled on. *)
Definition totalSeconds (timeStr : jsstring) : option float :=
  let parts := split 58%N timeStr in
  match operand parts 0, operand parts 1, operand parts 2 with
  | Some hours, Some minutes, Some seconds =>
      Some (hours * 3600 + minutes * 60 + seconds)%float
  | _, _, _ => None
  end.

(** [seekToTime(timeStr)]: nothing without a player; otherwise the seconds
    are computed and [playerRef.current.seekTo(totalSeconds, true)] is
    called, which throws a TypeError when the element has no [seekTo]. The
    result is [None] only where a call would take place with seconds that
    [Number] is not modelled on. *)
Definition seekToTime (timeStr : jsstring) (w : world)
  : option (completion unit * world) :=
  match playerRef_current w with
  | None => Some (Normal tt, w)
  | Some player =>
      let total := totalSeconds timeStr in
      match seekTo_property player, total with
      | None, _ => Some (Throw, w)
      | Some seekTo, Some secs => Some (Normal tt, emit (seekTo secs true) w)
      | Some _, None => None
      end
  end.

(** ** Events *)

Inductive event : Type :=
| Change (u : jsstring)                                (* typing in the input *)
| ClickStart (r : fetched start_response)              (* the Start button *)
| Tick (rs : fetched status_response) (rt : fetched transcript_response).

(** One event, handled to its end and committed before the next one. The
    input is disabled while processing, the button while processing or
    without a URL, and the callback runs only for a live interval. A
    [Tick] is a firing of the timer whose two requests settle before
    anything else happens; [async_step] below takes the callback await by
    await, so that callbacks can overlap. *)
Definition step (w : world) (e : event) : world :=
  match e with
  | Change u =>
      if isProcessing (st w) then w else commit (snd (setUrl u w))
  | ClickStart r =>
      if isProcessing (st w) then w else startProcessing r w
  | Tick rs rt =>
      match live w with
      | Some t => commit (pollInterval t rs rt w)
      | None => w
      end
  end.

Definition run (w : world) (evs : list event) : world := fold_left step evs w.

(** The component after its first render. *)
Definition mount : world :=
  commit {| st := initial_state; live := None; effect_run := None;
            next_id := 1; trace := [] |}.

(** The requests sent so far. *)
Definition requests (w : world) : list effect :=
  filter (fun e => match e with Fetch _ _ => true | _ => false end) (trace w).

Definition console (w : world) : list effect :=
  filter (fun e => match e with ConsoleError _ => true | _ => false end) (trace w).

(** The segments a run of events delivers: those of each tick that fires
    and whose two requests resolve. *)
Definition delivered (w : world) (e : event) : list server_sentence :=
  match e, live w with
  | Tick (Resolved _) (Resolved d), Some _ =>
      match data_sentences d with
      | Some l => l
      | None => []
      end
  | _, _ => []
  end.

Fixpoint received (w : world) (evs : list event) : list server_sentence :=
  match evs with
  | [] => []
  | e :: evs' => delivered w e ++ received (step w e) evs'
  end.

(** Segments numbered from [n] on, in order. *)
Definition number_from (n : nat) (l : list server_sentence) : list sentence :=
  array_map (fun s i => {| fields := s; sentence_number := n + i |}) l.

(** ** Invariants of the component *)

(** Sequence numbers 1, 2, ..., in order. *)
Definition numbered (l : list sentence) : Prop :=
  map sentence_number l = seq 1 (length l).

(** The dependencies as the callback of a timer sees them. *)
Definition closure_deps (t : interval) : deps :=
  (Some (cl_taskId t), cl_lastKey t, length (cl_sentences t)).

(** The effect has run, and a live timer is the 2500 ms one its last run
    created, the one its cleanup clears. *)
Definition effect_ok (w : world) : Prop :=
  exists d c,
    effect_run w = Some (d, c) /\
    forall t, live w = Some t ->
      c = Some (interval_id t) /\ closure_deps t = d /\ delay t = 2500.

(** A committed world: the last run of the effect saw the current
    dependencies, so the callback of a live timer sees the current cursor and
    the current number of sentences; and the transcript is numbered. *)
Definition consistent (w : world) : Prop :=
  effect_ok w /\
  (exists c, effect_run w = Some (deps_of (st w), c)) /\
  numbered (sentences (st w)).

(** The segments a tick appends, given the outcomes of its two requests. *)
Definition batch (rs : fetched status_response) (rt : fetched transcript_response)
  : list server_sentence :=
  match rs, rt with
  | Resolved _, Resolved d =>
      match data_sentences d with
      | Some l => l
      | None => []
      end
  | _, _ => []
  end.

(** A sequence of timer firings, each with the outcomes of its requests. *)
Definition ticks_of (l : list (fetched status_response * fetched transcript_response))
  : list event :=
  map (fun p => Tick (fst p) (snd p)) l.

(** The key of the most recently appended segment, null for an empty
    transcript. *)
Definition last_key_of (l : list sentence) : option jsstring :=
  match l with
  | [] => None
  | y :: _ => Some (key (fields (last l y)))
  end.

(** A response whose [last_key] is the key of its last sentence. *)
Definition cursor_is_last_key (p : fetched status_response * fetched transcript_response)
  : Prop :=
  match snd p with
  | Resolved d =>
      match data_sentences d with
      | Some (x :: l) => data_last_key d = Some (key (last (x :: l) x))
      | _ => True
      end
  | Rejected => True
  end.

(** ** A session, for examples *)

Definition segment (k t : string) : server_sentence :=
  {| key := js k; start_time := js t; english := js "hello";
     pronunciation_hindi := js "helo"; translation_hindi := js "namaste" |}.

Definition session_url : jsstring := js "https://youtu.be/ABCDEFGHIJK".

Definition session_start : list event :=
  [Change session_url; ClickStart (Resolved {| task_id := Some (js "task-1") |})].

Definition processing_status : status_response :=
  {| status := js "processing"; processed_chunks := 1; total_chunks := 4 |}.

Definition completed_status : status_response :=
  {| status := js "completed"; processed_chunks := 4; total_chunks := 4 |}.

Definition first_batch : transcript_response :=
  {| data_sentences := Some [segment "k1" "00:00:01"; segment "k2" "00:01:05"];
     data_last_key := Some (js "k2") |}.

Definition second_batch : transcript_response :=
  {| data_sentences := Some [segment "k3" "00:02:10"];
     data_last_key := Some (js "k3") |}.

Definition nothing_new : transcript_response :=
  {| data_sentences := Some []; data_last_key := None |}.

(** Two sentences with a cursor that is not the key of the second. *)
Definition opaque_cursor_batch : transcript_response :=
  {| data_sentences := Some [segment "k1" "00:00:01"; segment "k2" "00:01:05"];
     data_last_key := Some (js "page-2") |}.

(** The values of a two-digit field. *)
Definition two_digit_values : list Z := map Z.of_nat (seq 0 100).

(** Is the arithmetic of [seekToTime] exact on these three fields? *)
Definition exact_at (h m s : Z) : bool :=
  Leibniz.eqb
    (float_of_Z h * 3600 + float_of_Z m * 60 + float_of_Z s)%float
    (float_of_Z (h * 3600 + m * 60 + s)).

(** The check of all two-digit fields. *)
Definition seconds_exact : bool :=
  forallb (fun h =>
    forallb (fun m =>
      forallb (fun s => exact_at h m s) two_digit_values)
      two_digit_values)
    two_digit_values.

(** A link the pattern does not recognize. *)
Definition shorts_url : jsstring := js "https://www.youtube.com/shorts/ABCDEFGHIJK".

(** ** Rendering *)

(** One card of the transcript list. *)
Record card : Type := {
  card_key : jsstring;              (* the React key *)
  card_number : nat;                (* shown after '#' *)
  card_timestamp : jsstring;        (* shown, and given to [seekToTime] on a click *)
  card_english : jsstring;
  card_pronunciation : jsstring;
  card_translation : jsstring
}.

(** What [App] returns: the input, the button, and the three blocks that
    are rendered on a condition. *)
Record view : Type := {
  input_value : jsstring;
  input_disabled : bool;
  button_disabled : bool;
  button_label : jsstring;
  progress_bar : option float;      (* the number put before '%' *)
  video_src : option jsstring;      (* the src of the iframe *)
  transcript : option (list card)
}.

Definition card_of (s : sentence) : card :=
  {| card_key := key (fields s);
     card_number := sentence_number s;
     card_timestamp := start_time (fields s);
     card_english := english (fields s);
     card_pronunciation := pronunciation_hindi (fields s);
     card_translation := translation_hindi (fields s) |}.

(** The body of [App] after the hooks: [videoId] is computed from the URL,
    and the JSX is built from the state. *)
Definition render (s : state) : completion view :=
  match extractVideoId (url s) with
  | Throw => Throw
  | Normal videoId =>
      Normal
        {| input_value := url s;
           input_disabled := isProcessing s;
           button_disabled :=
             (isProcessing s || negb (truthy (Some (url s))))%bool;
           button_label :=
             if isProcessing s then js "Processing..." else js "Start";
           progress_bar := if isProcessing s then Some (progress s) else None;
           video_src :=
             match videoId with
             | Some (c :: v) => Some (embed_src (c :: v))
             | _ => None
             end;
           transcript :=
             if Nat.ltb 0 (length (sentences s))
             then Some (map card_of (sentences s))
             else None |}
  end.

(** ** Teardown and the timers of a trace *)

(** The component is discarded: React runs the cleanup of the last run of
    the effect. *)
Definition unmount (w : world) : world := cleanup w.

(** The effect of one entry of the trace on the set of running intervals. *)
Definition timer_event (running : list nat) (e : effect) : list nat :=
  match e with
  | SetInterval id _ => running ++ [id]
  | ClearInterval id => filter (fun j => negb (Nat.eqb j id)) running
  | _ => running
  end.

(** The intervals a trace has set and not cleared. *)
Definition running_intervals (tr : list effect) : list nat :=
  fold_left timer_event tr [].

Definition live_ids (w : world) : list nat :=
  match live w with
  | Some t => [interval_id t]
  | None => []
  end.

(** The timers are accounted for: the intervals running according to the
    trace are exactly the live one, whose identifier is used up and whose
    callback has a task handle that is not empty. *)
Definition timers_accounted (w : world) : Prop :=
  running_intervals (trace w) = live_ids w /\
  forall t, live w = Some t ->
    interval_id t < next_id w /\ cl_taskId t <> [].





(** The effect and the timers are in order. *)
Definition orderly (w : world) : Prop := effect_ok w /\ timers_accounted w.

(** An action that keeps a property of the world, however it ends. *)
Definition keeps (P : world -> Prop) {A : Type} (a : action A) : Prop :=
  forall w, P w -> P (snd (a w)).

(** An entry of the trace that is no timer call. *)
Definition quiet (e : effect) : Prop :=
  match e with
  | SetInterval _ _ | ClearInterval _ => False
  | _ => True
  end.

(** The state right after the three updates [startProcessing] makes before
    its request. *)
Definition submitting (s : state) : state :=
  {| url := url s; taskId := taskId s; sentences := []; lastKey := None;
     isProcessing := true; progress := progress s |}.


(** ** The callback, await by await

    The callback of the interval is an async function: it runs up to an
    await, and goes on when the awaited request settles; other events, a
    further firing of the same timer among them, can come in between. *)

(** How an awaited request settles. *)
Definition settled {A : Type} (r : fetched A) : action A :=
  fun w => (match r with Resolved a => Normal a | Rejected => Throw end, w).

(** From the firing of the timer to the first await: the status request is
    sent. *)
Definition poll_fired (t : interval) : world -> world :=
  emit (Fetch (task_status_url (cl_taskId t)) None).

(** From the settling of the status request to the second await: Progress
    is set and the transcript request is sent, or the error is caught. *)
Definition poll_status_settled (t : interval) (rs : fetched status_response)
  : world -> world :=
  try_catch
    (status_ <- settled rs ;;
     when (0 <? total_chunks status_)%float
       (let newProgress :=
          Math_round (processed_chunks status_ / total_chunks status_ * 100)%float in
        setProgress newProgress) ;;
     lift (emit (Fetch (transcript_url (cl_taskId t) (cl_lastKey t)) None)))
    poll_catch.

(** From the settling of the transcript request to the end. *)
Definition poll_transcript_settled (t : interval) (status_ : status_response)
  (rt : fetched transcript_response) : world -> world :=
  try_catch
    (data <- settled rt ;;
     match data_sentences data with
     | Some (s0 :: more) =>
         let startNum := length (cl_sentences t) + 1 in
         let newSentences :=
           array_map (fun sentence i =>
                        {| fields := sentence; sentence_number := startNum + i |})
                     (s0 :: more) in
         setSentences (fun prev => prev ++ newSentences) ;;
         setLastKey (data_last_key data)
     | _ => ret tt
     end ;;
     when (jsstring_eqb (status status_) (js "completed"))
       (lift (clearInterval (interval_id t)) ;; setIsProcessing false))
    poll_catch.

(** A callback that has started and not finished: the timer it belongs to,
    and the status it received if it is waiting for the transcript. *)
Record callback : Type := {
  cb_timer : interval;
  cb_status : option status_response
}.

(** The component with its callbacks in flight. *)
Record async : Type := {
  now : world;
  callbacks : list callback
}.

Inductive async_event : Type :=
| Typing (u : jsstring)                 (* the input changes *)
| Clicking (r : fetched start_response) (* a click on Start *)
| Fire                                  (* the live timer fires *)
| StatusSettles (i : nat) (rs : fetched status_response)
                                        (* for the i-th callback in flight *)
| TranscriptSettles (i : nat) (rt : fetched transcript_response).

Fixpoint remove_nth {A : Type} (i : nat) (l : list A) : list A :=
  match i, l with
  | _, [] => []
  | 0, _ :: l' => l'
  | S i', x :: l' => x :: remove_nth i' l'
  end.

Fixpoint replace_nth {A : Type} (i : nat) (y : A) (l : list A) : list A :=
  match i, l with
  | _, [] => []
  | 0, _ :: l' => y :: l'
  | S i', x :: l' => x :: replace_nth i' y l'
  end.

(** One event of the component with callbacks in flight. A firing starts
    a callback of the live timer; a request settles for a callback that is
    waiting for it, whether or not its timer is still live, and React
    commits what the callback did. The user's events are handled as in
    [step]. *)
Definition async_step (a : async) (e : async_event) : async :=
  match e with
  | Typing u => {| now := step (now a) (Change u); callbacks := callbacks a |}
  | Clicking r => {| now := step (now a) (ClickStart r); callbacks := callbacks a |}
  | Fire =>
      match live (now a) with
      | Some t =>
          {| now := poll_fired t (now a);
             callbacks := callbacks a ++ [{| cb_timer := t; cb_status := None |}] |}
      | None => a
      end
  | StatusSettles i rs =>
      match nth_error (callbacks a) i with
      | Some {| cb_timer := t; cb_status := None |} =>
          {| now := commit (poll_status_settled t rs (now a));
             callbacks :=
               match rs with
               | Resolved status_ =>
                   replace_nth i {| cb_timer := t; cb_status := Some status_ |}
                               (callbacks a)
               | Rejected => remove_nth i (callbacks a)
               end |}
      | _ => a
      end
  | TranscriptSettles i rt =>
      match nth_error (callbacks a) i with
      | Some {| cb_timer := t; cb_status := Some status_ |} =>
          {| now := commit (poll_transcript_settled t status_ rt (now a));
             callbacks := remove_nth i (callbacks a) |}
      | _ => a
      end
  end.

Definition async_run (a : async) (evs : list async_event) : async :=
  fold_left async_step evs a.

(** The component after its first render, nothing in flight. *)
Definition loaded : async := {| now := mount; callbacks := [] |}.

(** A tick on its own: the timer fires and both requests of its callback
    settle before anything else happens. *)
Definition tick_alone (rs : fetched status_response)
  (rt : fetched transcript_response) : list async_event :=
  [Fire; StatusSettles 0 rs; TranscriptSettles 0 rt].

(** The events of a history of [step], each tick on its own. *)
Definition one_at_a_time (evs : list event) : list async_event :=
  flat_map (fun e => match e with
                     | Change u => [Typing u]
                     | ClickStart r => [Clicking r]
                     | Tick rs rt => tick_alone rs rt
                     end) evs.

(** A committed world in order: the last run of the effect saw the current
    dependencies, and the timers are accounted for. *)
Definition sound (w : world) : Prop :=
  orderly w /\ exists c, effect_run w = Some (deps_of (st w), c).

(** An event that brings sentences does so with the key of the last one as
    [last_key]. *)
Definition cursor_kept (e : async_event) : Prop :=
  match e with
  | TranscriptSettles _ rt => cursor_is_last_key (Rejected, rt)
  | _ => True
  end.

(** An event other than a submission. *)
Definition no_submission (e : async_event) : Prop :=
  match e with
  | Clicking _ => False
  | _ => True
  end.

(** * Properties *)

Unset Implicit Arguments.

(** ** The matcher *)

Section Matcher.

Lemma m_atoms (l : list atom) (k : cont) (x : mstate) :
  m (atoms l) k x =
  if starts l (rest x)
  then k (MState (pos x + length l) (skipn (length l) (rest x)) (caps x))
  else None.
Proof.
  revert x. induction l as [|a l IH]; intros [i s c]; simpl.
  - now rewrite Nat.add_0_r.
  - destruct s as [|y s]; [reflexivity|].
    destruct (atom_matches a y); simpl; [|reflexivity].
    rewrite IH. simpl. now rewrite Nat.add_succ_r.
Qed.

Lemma m_shapes (k : cont) (x : mstate) :
  m shapes k x =
  match shape_length (rest x) with
  | Some n => k (MState (pos x + n) (skipn n (rest x)) (caps x))
  | None => None
  end.
Proof.
  unfold shapes, shape_length. cbn [m]. rewrite !m_atoms.
  destruct x as [i [|c s] cs]; [reflexivity|].
  cbn [rest pos caps].
  change youtu_be with (Lit 121%N :: tl youtu_be).
  change v_slash with (Lit 118%N :: tl v_slash).
  change u_w_slash with (Lit 117%N :: tl u_w_slash).
  change embed_slash with (Lit 101%N :: tl embed_slash).
  change watch_v with (Lit 119%N :: tl watch_v).
  change amp_v with (Lit 38%N :: tl amp_v).
  cbn [starts atom_matches].
  destruct (N.eqb_spec 121%N c) as [<-|]; [cbn [N.eqb Pos.eqb andb]|cbn [andb]].
  { destruct (starts _ s); [|reflexivity]. now destruct (k _). }
  destruct (N.eqb_spec 118%N c) as [<-|]; [cbn [N.eqb Pos.eqb andb]|cbn [andb]].
  { destruct (starts _ s); [|reflexivity]. now destruct (k _). }
  destruct (N.eqb_spec 117%N c) as [<-|]; [cbn [N.eqb Pos.eqb andb]|cbn [andb]].
  { destruct (starts _ s); [|reflexivity]. now destruct (k _). }
  destruct (N.eqb_spec 101%N c) as [<-|]; [cbn [N.eqb Pos.eqb andb]|cbn [andb]].
  { destruct (starts _ s); [|reflexivity]. now destruct (k _). }
  destruct (N.eqb_spec 119%N c) as [<-|]; [cbn [N.eqb Pos.eqb andb]|cbn [andb]].
  { destruct (starts _ s); [|reflexivity]. now destruct (k _). }
  now destruct (_ && _).
Qed.

Lemma star_total (p : code_unit -> bool) (k : cont) :
  (forall y, k y <> None) ->
  forall s i c,
    star p k i s c =
    k (MState (i + length (take_while p s)) (drop_while p s) c).
Proof.
  intros Hk. induction s as [|x s IH]; intros i c; simpl.
  - now rewrite Nat.add_0_r.
  - destruct (p x) eqn:Hp; simpl.
    + rewrite IH. rewrite Nat.add_succ_r. simpl.
      destruct (k _) eqn:E; [reflexivity|]. now apply Hk in E.
    + now rewrite Nat.add_0_r.
Qed.

Lemma star_Some (p : code_unit -> bool) (s : jsstring) (i : nat) c :
  star p Some i s c =
  Some (MState (i + length (take_while p s)) (drop_while p s) c).
Proof. apply star_total. discriminate. Qed.

Lemma firstn_take_while (p : code_unit -> bool) (s : jsstring) :
  firstn (length (take_while p s)) s = take_while p s.
Proof.
  induction s as [|x s IH]; simpl; [reflexivity|].
  destruct (p x); simpl; [now rewrite IH|reflexivity].
Qed.


Lemma after_prefix_group2 (x : mstate) :
  option_map (fun y => group 2 (caps y)) (after_prefix x) =
  option_map (fun n => Some (token_of (skipn n (rest x)))) (shape_length (rest x)).
Proof.
  unfold after_prefix. cbn [m]. rewrite m_shapes.
  destruct (shape_length (rest x)) as [n|]; [|reflexivity].
  cbn [pos rest caps].
  rewrite star_total.
  - cbn [pos rest caps]. rewrite star_Some. cbn.
    replace (_ + _ - _) with (length (take_while (atom_matches token_class)
                                        (skipn n (rest x)))) by lia.
    now rewrite firstn_take_while.
  - intros y. cbn [pos rest caps]. now rewrite star_Some.
Qed.

Lemma star_dot_after_prefix (s : jsstring) :
  forall i c,
    option_map (fun y => group 2 (caps y))
      (star (atom_matches Dot) after_prefix i s c) =
    option_map (fun a => Some (token_of a)) (after_last_shape s).
Proof.
  induction s as [|x s IH]; intros i c.
  - cbn [star after_last_shape]. now rewrite after_prefix_group2.
  - cbn [star after_last_shape atom_matches].
    destruct (line_terminator x); cbn [negb].
    + rewrite after_prefix_group2. cbn [rest].
      now destruct (shape_length (x :: s)).
    + specialize (IH (S i) c).
      destruct (star _ _ (S i) s c) as [y|]; destruct (after_last_shape s) as [a|];
        cbn in IH; try discriminate; [exact IH|].
      rewrite after_prefix_group2. cbn [rest].
      now destruct (shape_length (x :: s)).
Qed.

Lemma search_Bol_later (r : regex) (s : jsstring) :
  forall i, search (Cat Bol r) (S i) s = None.
Proof.
  induction s as [|x s IH]; intros i; cbn; [reflexivity|apply IH].
Qed.

Lemma m_regExp_start (url : jsstring) :
  m regExp Some (MState 0 url []) = star (atom_matches Dot) after_prefix 0 url [].
Proof. reflexivity. Qed.

Lemma exec_regExp (url : jsstring) :
  exec regExp url = star (atom_matches Dot) after_prefix 0 url [].
Proof.
  unfold exec. destruct url as [|x s]; unfold search; fold search;
    rewrite m_regExp_start; destruct (star _ _ _ _ _); try reflexivity.
  apply search_Bol_later.
Qed.

(** [extractVideoId] in closed form. *)
Lemma extractVideoId_after_last_shape (url : jsstring) :
  extractVideoId url =
  match after_last_shape url with
  | Some a =>
      if Nat.eqb (length (token_of a)) 11 then Normal (Some (token_of a))
      else Normal None
  | None => Normal None
  end.
Proof.
  unfold extractVideoId. rewrite exec_regExp.
  pose proof (star_dot_after_prefix url 0 []) as H.
  destruct (star _ _ _ _ _) as [y|]; destruct (after_last_shape url) as [a|];
    cbn in H; try discriminate; [|reflexivity].
  injection H as ->. reflexivity.
Qed.

End Matcher.

(** ** Shapes as strings *)

Section Shapes.

Ltac explicit_shapes :=
  let a := eval vm_compute in youtu_be in change youtu_be with a in *;
  let a := eval vm_compute in v_slash in change v_slash with a in *;
  let a := eval vm_compute in u_w_slash in change u_w_slash with a in *;
  let a := eval vm_compute in embed_slash in change embed_slash with a in *;
  let a := eval vm_compute in watch_v in change watch_v with a in *;
  let a := eval vm_compute in amp_v in change amp_v with a in *.

Lemma starts_cons (a : atom) (l : list atom) (c : code_unit) (s : jsstring) :
  starts (a :: l) (c :: s) = (atom_matches a c && starts l s)%bool.
Proof. reflexivity. Qed.

Ltac peel H :=
  repeat match type of H with
  | starts (_ :: _) ?s = true =>
      destruct s; [discriminate H|];
      rewrite starts_cons in H; apply andb_prop in H;
      let A := fresh "A" in destruct H as [A H];
      cbn [atom_matches] in A; try (apply N.eqb_eq in A; subst)
  end.

Lemma shape_length_sound (s : jsstring) (n : nat) :
  shape_length s = Some n ->
  shape (firstn n s) /\ length (firstn n s) = n.
Proof.
  unfold shape_length. explicit_shapes.
  destruct (starts _ s) eqn:H1; [|clear H1; destruct (starts _ s) eqn:H2;
    [|clear H2; destruct (starts _ s) eqn:H3;
      [|clear H3; destruct (starts _ s) eqn:H4;
        [|clear H4; destruct (starts _ s) eqn:H5;
          [|clear H5; destruct (starts _ s) eqn:H6; [|discriminate]]]]]];
    intros [= <-].
  - peel H1. split; [|reflexivity].
    apply (shape_youtu_be c). now apply negb_true_iff in A.
  - peel H2. split; [apply shape_v|reflexivity].
  - peel H3. split; [|reflexivity]. now apply (shape_u c).
  - peel H4. split; [apply shape_embed|reflexivity].
  - peel H5. split; [apply shape_watch|reflexivity].
  - peel H6. split; [apply shape_amp_v|reflexivity].
Qed.

Lemma shape_length_complete (d after : jsstring) :
  shape d -> shape_length (d ++ after) = Some (length d).
Proof.
  intros [c Hc| |c Hc| | |]; unfold shape_length; explicit_shapes; cbn;
    rewrite ?Hc; reflexivity.
Qed.

Lemma shape_nonempty (d : jsstring) : shape d -> d <> [].
Proof. intros []; discriminate. Qed.

End Shapes.

(** ** Video identifier extraction *)

Section Extraction.

Lemma one_line_cons (x : code_unit) (s : jsstring) :
  one_line (x :: s) <-> line_terminator x = false /\ one_line s.
Proof.
  unfold one_line. split.
  - intros H. inversion H; subst. now split.
  - intros [H1 H2]. now constructor.
Qed.

Lemma shape_starts_here (s d after : jsstring) :
  s = d ++ after -> shape d -> shape_length s = Some (length d).
Proof. intros -> H. now apply shape_length_complete. Qed.

Lemma shape_here (s : jsstring) (n : nat) :
  shape_length s = Some n ->
  s = [] ++ firstn n s ++ skipn n s /\ shape (firstn n s).
Proof.
  intros H. apply shape_length_sound in H as [H _].
  split; [now rewrite firstn_skipn|exact H].
Qed.

(** Nothing is found exactly when no shape starts on the first line. *)
Lemma after_last_shape_None (s : jsstring) :
  after_last_shape s = None -> no_shape s.
Proof.
  induction s as [|x s IH]; cbn [after_last_shape].
  - intros _ before d after E _ Hd.
    apply shape_nonempty in Hd.
    destruct before; [destruct d|]; [congruence|discriminate..].
  - intros H before d after E Hb Hd.
    destruct before as [|y before].
    + apply (shape_starts_here (x :: s) d after E) in Hd.
      rewrite Hd in H. cbn in H.
      destruct (line_terminator x); [discriminate|].
      destruct (after_last_shape s); discriminate.
    + injection E as <- E. apply one_line_cons in Hb as [Hx Hb].
      rewrite Hx in H.
      destruct (after_last_shape s) eqn:Es; [discriminate|].
      exact (IH eq_refl before d after E Hb Hd).
Qed.

(** What is found follows the last shape starting on the first line. *)
Lemma after_last_shape_Some (s a : jsstring) :
  after_last_shape s = Some a ->
  exists before d,
    s = before ++ d ++ a /\ one_line before /\ shape d /\
    forall before' d' after',
      s = before' ++ d' ++ after' -> one_line before' -> shape d' ->
      length before' <= length before.
Proof.
  revert a. induction s as [|x s IH]; intros a; cbn [after_last_shape].
  - cbn. discriminate.
  - destruct (line_terminator x) eqn:Hx.
    + destruct (shape_length (x :: s)) as [n|] eqn:Hn; [|discriminate].
      cbn [option_map]. intros [= <-].
      destruct (shape_here _ _ Hn) as [E Hd].
      exists [], (firstn n (x :: s)). repeat split; [exact E|constructor|exact Hd|].
      intros [|y b'] d' after' E' Hb' _; [cbn; lia|].
      injection E' as <- _. apply one_line_cons in Hb' as [Hy _]. congruence.
    + destruct (after_last_shape s) as [a'|] eqn:Es.
      * intros [= <-].
        destruct (IH a' eq_refl) as (before & d & E & Hb & Hd & Hlast).
        exists (x :: before), d. repeat split.
        -- cbn. now rewrite <- E.
        -- now apply one_line_cons.
        -- exact Hd.
        -- intros [|y b'] d' after' E' Hb' Hd'; [cbn; lia|].
           injection E' as <- E'. apply one_line_cons in Hb' as [_ Hb'].
           cbn. apply le_n_S. exact (Hlast b' d' after' E' Hb' Hd').
      * destruct (shape_length (x :: s)) as [n|] eqn:Hn; [|discriminate].
        cbn [option_map]. intros [= <-].
        destruct (shape_here _ _ Hn) as [E Hd].
        exists [], (firstn n (x :: s)).
        repeat split; [exact E|constructor|exact Hd|].
        intros [|y b'] d' after' E' Hb' Hd'; [cbn; lia|].
        injection E' as <- E'. apply one_line_cons in Hb' as [_ Hb'].
        now destruct (after_last_shape_None _ Es _ _ _ E' Hb' Hd').
Qed.

Lemma app_same_length (A : Type) (a b c d : list A) :
  a ++ b = c ++ d -> length a = length c -> a = c /\ b = d.
Proof.
  revert c. induction a as [|x a IH]; intros [|y c] E L; try discriminate.
  - now split.
  - injection E as <- E. injection L as L.
    destruct (IH c E L) as [-> ->]. now split.
Qed.

(** The last shape of the first line, and so what follows it, is unique. *)
Lemma last_shape_after (s tok : jsstring) :
  last_shape_then_token s tok ->
  exists a, after_last_shape s = Some a /\ token_of a = tok.
Proof.
  intros (before & d & after & E & Hb & Hd & Ht & Hlast).
  destruct (after_last_shape s) as [a|] eqn:Ea.
  - exists a. split; [reflexivity|].
    destruct (after_last_shape_Some _ _ Ea) as (b0 & d0 & E0 & Hb0 & Hd0 & Hlast0).
    assert (L : length before = length b0).
    { apply Nat.le_antisymm.
      - exact (Hlast0 _ _ _ E Hb Hd).
      - exact (Hlast _ _ _ E0 Hb0 Hd0). }
    rewrite E in E0. destruct (app_same_length _ _ _ _ _ E0 L) as [-> E1].
    pose proof (shape_length_complete _ after Hd) as L1.
    rewrite E1 in L1. rewrite (shape_length_complete _ a Hd0) in L1.
    injection L1 as L1. symmetry in L1.
    destruct (app_same_length _ _ _ _ _ E1 L1) as [_ ->]. exact Ht.
  - now destruct (after_last_shape_None _ Ea _ _ _ E Hb Hd).
Qed.

Lemma after_last_shape_token (s a : jsstring) :
  after_last_shape s = Some a -> last_shape_then_token s (token_of a).
Proof.
  intros H. destruct (after_last_shape_Some _ _ H) as (before & d & E & Hb & Hd & L).
  exists before, d, a. repeat split; assumption.
Qed.

Lemma last_shape_is_shape (s tok : jsstring) :
  last_shape_then_token s tok -> shape_then_token s tok.
Proof.
  intros (before & d & after & E & _ & Hd & Ht & _).
  exists before, d, after. repeat split; assumption.
Qed.

Lemma extractVideoId_Some (url id : jsstring) :
  extractVideoId url = Normal (Some id) ->
  last_shape_then_token url id /\ length id = 11.
Proof.
  rewrite extractVideoId_after_last_shape.
  destruct (after_last_shape url) as [a|] eqn:Ea; [|discriminate].
  destruct (Nat.eqb_spec (length (token_of a)) 11) as [L|]; [|discriminate].
  intros [= <-]. split; [now apply after_last_shape_token|exact L].
Qed.

(** C10. Whatever the input string, [extractVideoId] returns null or a
    string of exactly 11 code units; it never throws and never returns an
    identifier of another length. *)
Theorem extractVideoId_null_or_eleven (url : jsstring) :
  extractVideoId url = Normal None \/
  exists id, extractVideoId url = Normal (Some id) /\ length id = 11.
Proof.
  rewrite extractVideoId_after_last_shape.
  destruct (after_last_shape url) as [a|]; [|now left].
  destruct (Nat.eqb_spec (length (token_of a)) 11) as [L|]; [|now left].
  right. now exists (token_of a).
Qed.

(** C2, as stated, fails: this URL has the shape "watch?v=" followed by an
    11-character token, yet the identifier is null, because the pattern
    settles on the later "&v=". *)
Lemma extractVideoId_earlier_shape_ignored :
  shape_then_token (js "https://www.youtube.com/watch?v=ABCDEFGHIJK&v=2")
                   (js "ABCDEFGHIJK") /\
  length (js "ABCDEFGHIJK") = 11 /\
  extractVideoId (js "https://www.youtube.com/watch?v=ABCDEFGHIJK&v=2") = Normal None.
Proof.
  split; [|split; [reflexivity|vm_compute; reflexivity]].
  exists (js "https://www.youtube.com/"), (js "watch?v="), (js "ABCDEFGHIJK&v=2").
  split; [reflexivity|]. split; [apply shape_watch|reflexivity].
Qed.

(** C2, amended. The token that counts is the one after the last recognized
    shape starting on the first line of the URL: when it has 11 characters
    it is the identifier returned, when it has another length the result is
    null; and a URL in which no recognized shape is followed by an
    11-character token gives null. *)
Theorem extractVideoId_last_shape (url : jsstring) :
  (forall tok, last_shape_then_token url tok -> length tok = 11 ->
               extractVideoId url = Normal (Some tok)) /\
  (forall tok, last_shape_then_token url tok -> length tok <> 11 ->
               extractVideoId url = Normal None) /\
  ((forall tok, shape_then_token url tok -> length tok <> 11) ->
   extractVideoId url = Normal None).
Proof.
  repeat split.
  - intros tok H L. apply last_shape_after in H as (a & Ea & <-).
    rewrite extractVideoId_after_last_shape, Ea.
    apply Nat.eqb_eq in L. now rewrite L.
  - intros tok H L. apply last_shape_after in H as (a & Ea & <-).
    rewrite extractVideoId_after_last_shape, Ea.
    apply Nat.eqb_neq in L. now rewrite L.
  - intros H. rewrite extractVideoId_after_last_shape.
    destruct (after_last_shape url) as [a|] eqn:Ea; [|reflexivity].
    destruct (Nat.eqb_spec (length (token_of a)) 11) as [L|]; [|reflexivity].
    apply after_last_shape_token, last_shape_is_shape in Ea.
    now destruct (H _ Ea).
Qed.

Lemma extractVideoId_last_shape_witness :
  extractVideoId (js "https://www.youtube.com/watch?v=AAAAAAAAAAA&v=BBBBBBBBBBB")
  = Normal (Some (js "BBBBBBBBBBB")).
Proof.
  apply (proj1 (extractVideoId_last_shape _)); [|reflexivity].
  apply (after_last_shape_token _ (js "BBBBBBBBBBB")).
  vm_compute. reflexivity.
Defined.

Example extractVideoId_short_link :
  extractVideoId (js "https://youtu.be/ABCDEFGHIJK") = Normal (Some (js "ABCDEFGHIJK")).
Proof. vm_compute. reflexivity. Qed.

Example extractVideoId_watch_link :
  extractVideoId (js "https://www.youtube.com/watch?v=dQw4w9WgXcQ&t=42")
  = Normal (Some (js "dQw4w9WgXcQ")).
Proof. vm_compute. reflexivity. Qed.

Example extractVideoId_no_shape :
  extractVideoId (js "https://example.com/") = Normal None.
Proof. vm_compute. reflexivity. Qed.

Example extractVideoId_long_token :
  extractVideoId (js "https://youtu.be/ABCDEFGHIJKL") = Normal None.
Proof. vm_compute. reflexivity. Qed.

End Extraction.

(** ** The effect and its timer *)

Section Effect.

Lemma jsstring_eqb_eq (a b : jsstring) : jsstring_eqb a b = true <-> a = b.
Proof.
  revert b. induction a as [|x a IH]; intros [|y b]; cbn; split;
    try discriminate; try reflexivity.
  - intros H. apply andb_prop in H as [H1 H2].
    apply N.eqb_eq in H1. apply IH in H2. now subst.
  - intros [= -> ->]. rewrite N.eqb_refl. now apply IH.
Qed.

Lemma option_jsstring_eqb_eq (a b : option jsstring) :
  option_jsstring_eqb a b = true <-> a = b.
Proof.
  destruct a as [a|], b as [b|]; cbn; split; try discriminate; try reflexivity.
  - intros H. apply jsstring_eqb_eq in H. now subst.
  - intros [= ->]. now apply jsstring_eqb_eq.
Qed.

Lemma deps_eqb_eq (a b : deps) : deps_eqb a b = true <-> a = b.
Proof.
  destruct a as [[t1 k1] n1], b as [[t2 k2] n2]. cbn. split.
  - intros H. apply andb_prop in H as [H H3]. apply andb_prop in H as [H1 H2].
    apply option_jsstring_eqb_eq in H1, H2. apply Nat.eqb_eq in H3. now subst.
  - intros [= -> -> ->].
    rewrite (proj2 (option_jsstring_eqb_eq t2 t2) eq_refl),
            (proj2 (option_jsstring_eqb_eq k2 k2) eq_refl), Nat.eqb_refl.
    reflexivity.
Qed.

Lemma st_effect_body (w : world) : st (effect_body w) = st w.
Proof. unfold effect_body. now destruct (taskId (st w)) as [[|]|]. Qed.

Lemma st_cleanup (w : world) : st (cleanup w) = st w.
Proof. unfold cleanup. now destruct (effect_run w) as [[? [|]]|]. Qed.

(** Committing a render changes no state of the component. *)
Lemma st_commit (w : world) : st (commit w) = st w.
Proof.
  unfold commit. destruct (effect_run w) as [[d c]|]; [|apply st_effect_body].
  destruct (deps_eqb d (deps_of (st w))); [reflexivity|].
  now rewrite st_effect_body, st_cleanup.
Qed.

(** With unchanged dependencies the effect does not run again. *)
Lemma commit_same_deps (w : world) (c : option nat) :
  effect_run w = Some (deps_of (st w), c) -> commit w = w.
Proof.
  intros H. unfold commit. rewrite H.
  now rewrite (proj2 (deps_eqb_eq _ _) eq_refl).
Qed.

Lemma requests_app (w : world) (l : list effect) :
  filter (fun e => match e with Fetch _ _ => true | _ => false end) (trace w ++ l)
  = requests w ++ filter (fun e => match e with Fetch _ _ => true | _ => false end) l.
Proof. apply filter_app. Qed.

Lemma console_app (w : world) (l : list effect) :
  filter (fun e => match e with ConsoleError _ => true | _ => false end) (trace w ++ l)
  = console w ++ filter (fun e => match e with ConsoleError _ => true | _ => false end) l.
Proof. apply filter_app. Qed.

(** The effect and its cleanup only touch timers. *)
Lemma requests_commit (w : world) : requests (commit w) = requests w.
Proof.
  unfold commit, cleanup, effect_body, requests.
  destruct (effect_run w) as [[d [id|]]|];
    [destruct (deps_eqb d (deps_of (st w)))|
     destruct (deps_eqb d (deps_of (st w)))|]; try reflexivity;
    cbn; destruct (taskId (st w)) as [[|]|]; cbn;
    rewrite ?filter_app; cbn; rewrite ?app_nil_r; reflexivity.
Qed.

Lemma console_commit (w : world) : console (commit w) = console w.
Proof.
  unfold commit, cleanup, effect_body, console.
  destruct (effect_run w) as [[d [id|]]|];
    [destruct (deps_eqb d (deps_of (st w)))|
     destruct (deps_eqb d (deps_of (st w)))|]; try reflexivity;
    cbn; destruct (taskId (st w)) as [[|]|]; cbn;
    rewrite ?filter_app; cbn; rewrite ?app_nil_r; reflexivity.
Qed.

End Effect.

(** ** The polling callback *)

(** Case analysis on the path a tick takes. *)
Ltac poll_unfold :=
  unfold pollInterval, try_catch, poll_body, poll_catch, fetch_json, console_error,
    bind, when, lift, ret, setProgress, setSentences, setLastKey, setIsProcessing.

Ltac poll_paths :=
  cbn;
  repeat match goal with
  | |- context [PrimFloat.ltb ?a ?b] => destruct (PrimFloat.ltb a b); cbn
  | |- context [data_sentences ?d] => destruct (data_sentences d) as [[|? ?]|]; cbn
  | |- context [jsstring_eqb ?a ?b] => destruct (jsstring_eqb a b); cbn
  end.

Ltac poll_cases rs rt :=
  poll_unfold;
  destruct rs as [?s|]; [|cbn; try easy];
  destruct rt as [?d|]; poll_paths.

Section Polling.


(** The callback leaves the record of the effect alone, and the timer too
    unless it clears it. *)
Lemma poll_frame (t : interval) rs rt (w : world) :
  effect_run (pollInterval t rs rt w) = effect_run w /\
  next_id (pollInterval t rs rt w) = next_id w /\
  (live (pollInterval t rs rt w) = live w \/ live (pollInterval t rs rt w) = None).
Proof.
  poll_cases rs rt; repeat split; auto;
    destruct (live w) as [t'|]; auto; destruct (Nat.eqb _ _); auto.
Qed.

Lemma array_map_from_number (l : list server_sentence) :
  forall n i,
    array_map_from (fun s j => {| fields := s; sentence_number := n + j |}) i l
    = array_map_from (fun s j => {| fields := s; sentence_number := n + i + j |}) 0 l.
Proof.
  induction l as [|x l IH]; intros n i; cbn; [reflexivity|].
  rewrite Nat.add_0_r. f_equal.
  rewrite (IH n (S i)), (IH (n + i) 1).
  replace (n + S i) with (n + i + 1) by lia. reflexivity.
Qed.

Lemma number_from_cons (n : nat) (x : server_sentence) (l : list server_sentence) :
  number_from n (x :: l) = {| fields := x; sentence_number := n |} :: number_from (S n) l.
Proof.
  unfold number_from, array_map. cbn. rewrite Nat.add_0_r. f_equal.
  rewrite array_map_from_number. replace (n + 1) with (S n) by lia. reflexivity.
Qed.

Lemma number_from_app (n : nat) (l1 l2 : list server_sentence) :
  number_from n (l1 ++ l2) = number_from n l1 ++ number_from (n + length l1) l2.
Proof.
  revert n. induction l1 as [|x l1 IH]; intros n; cbn [app length].
  - now rewrite Nat.add_0_r.
  - rewrite !number_from_cons, IH. cbn. now rewrite Nat.add_succ_r.
Qed.

Lemma number_from_numbers (n : nat) (l : list server_sentence) :
  map sentence_number (number_from n l) = seq n (length l).
Proof.
  revert n. induction l as [|x l IH]; intros n; [reflexivity|].
  rewrite number_from_cons. cbn. now rewrite IH.
Qed.

Lemma number_from_fields (n : nat) (l : list server_sentence) :
  map fields (number_from n l) = l.
Proof.
  revert n. induction l as [|x l IH]; intros n; [reflexivity|].
  rewrite number_from_cons. cbn. now rewrite IH.
Qed.

Lemma number_from_length (n : nat) (l : list server_sentence) :
  length (number_from n l) = length l.
Proof. now rewrite <- (length_map sentence_number), number_from_numbers, length_seq. Qed.

(** What a tick does to the transcript: the batch is appended, numbered from
    the count its callback closed over, plus one. *)
Lemma poll_sentences (t : interval) rs rt (w : world) :
  sentences (st (pollInterval t rs rt w)) =
  sentences (st w) ++ number_from (length (cl_sentences t) + 1) (batch rs rt).
Proof.
  poll_cases rs rt; rewrite ?app_nil_r; reflexivity.
Qed.

Lemma numbered_app (prev : list sentence) (l : list server_sentence) :
  numbered prev -> numbered (prev ++ number_from (length prev + 1) l).
Proof.
  unfold numbered. intros H.
  rewrite map_app, H, number_from_numbers, length_app, number_from_length, seq_app.
  now rewrite Nat.add_comm.
Qed.

End Polling.

(** ** Invariants *)

Section Invariants.

(** A handler that leaves the record of the effect alone and at most clears
    the timer keeps the effect in order. *)
Lemma effect_ok_frame (w w' : world) :
  effect_ok w ->
  effect_run w' = effect_run w ->
  live w' = live w \/ live w' = None ->
  effect_ok w'.
Proof.
  intros (d & c & E & H) Er [L|L]; exists d, c; rewrite Er, L;
    (split; [exact E|]); [exact H|discriminate].
Qed.

Lemma commit_consistent (w : world) :
  effect_ok w -> numbered (sentences (st w)) -> consistent (commit w).
Proof.
  intros (d & c & E & H) Hn. unfold consistent.
  rewrite st_commit. split; [|split; [|exact Hn]];
    unfold commit; rewrite E;
    destruct (deps_eqb d (deps_of (st w))) eqn:Ed.
  - exists d, c. now split.
  - assert (Hl : live (cleanup w) = None).
    { unfold cleanup. rewrite E. destruct c as [id|]; cbn.
      - destruct (live w) as [t|] eqn:L; [|reflexivity].
        destruct (H t eq_refl) as ([= ->] & _). now rewrite Nat.eqb_refl.
      - destruct (live w) as [t|]; [|reflexivity].
        now destruct (H t eq_refl) as (? & _). }
    unfold effect_body. rewrite st_cleanup.
    destruct (taskId (st w)) as [[|x tid]|] eqn:Et; cbn.
    + exists (deps_of (st w)), None. rewrite Hl. now split.
    + exists (deps_of (st w)), (Some (next_id (cleanup w))). split; [reflexivity|].
      intros t [= <-]. cbn. unfold closure_deps, deps_of. cbn. now rewrite Et.
    + exists (deps_of (st w)), None. rewrite Hl. now split.
  - apply deps_eqb_eq in Ed. subst d. now exists c.
  - unfold effect_body. rewrite st_cleanup.
    destruct (taskId (st w)) as [[|x tid]|]; cbn; eexists; reflexivity.
Qed.

Lemma mount_consistent : consistent mount.
Proof.
  unfold mount, commit, effect_body, consistent, effect_ok. cbn.
  repeat split.
  - exists (deps_of initial_state), None. split; [reflexivity|discriminate].
  - now exists None.
Qed.

Lemma consistent_closure (w : world) (t : interval) :
  consistent w -> live w = Some t ->
  closure_deps t = deps_of (st w) /\ delay t = 2500 /\
  effect_run w = Some (deps_of (st w), Some (interval_id t)).
Proof.
  intros ((d & c & E & H) & (c' & E') & _) L.
  rewrite E in E'. injection E' as -> ->.
  destruct (H t L) as (-> & Hd & Hy). now repeat split.
Qed.

Lemma poll_consistent (w : world) (t : interval) rs rt :
  consistent w -> live w = Some t ->
  consistent (commit (pollInterval t rs rt w)).
Proof.
  intros C L. destruct (consistent_closure _ _ C L) as (Hd & _ & _).
  destruct C as (Ok & _ & Hn).
  destruct (poll_frame t rs rt w) as (Er & _ & Hl).
  apply commit_consistent.
  - exact (effect_ok_frame _ _ Ok Er Hl).
  - rewrite poll_sentences.
    injection Hd as _ _ Hlen. rewrite Hlen. now apply numbered_app.
Qed.

Lemma startProcessing_consistent (r : fetched start_response) (w : world) :
  consistent w -> consistent (startProcessing r w).
Proof.
  intros C. unfold startProcessing.
  destruct (url (st w)) as [|x u]; [exact C|].
  apply commit_consistent.
  - set (w1 := commit _).
    assert (C1 : consistent w1).
    { apply commit_consistent; [|reflexivity].
      destruct C as (Ok & _ & _). now apply (effect_ok_frame _ _ Ok); [|left]. }
    destruct C1 as (Ok1 & _ & _).
    apply (effect_ok_frame _ _ Ok1); [|left]; now destruct r.
  - match goal with
    | |- numbered (sentences (st (try_catch ?b ?h ?w1))) =>
        replace (sentences (st (try_catch b h w1))) with (sentences (st w1))
          by (now destruct r)
    end.
    rewrite st_commit. reflexivity.
Qed.

(** Every event keeps the component consistent. *)
Lemma step_consistent (w : world) (e : event) :
  consistent w -> consistent (step w e).
Proof.
  intros C. destruct e as [u|r|rs rt]; cbn [step].
  - destruct (isProcessing (st w)); [exact C|].
    destruct C as (Ok & _ & Hn).
    apply commit_consistent; [|exact Hn].
    now apply (effect_ok_frame _ _ Ok); [|left].
  - destruct (isProcessing (st w)); [exact C|].
    now apply startProcessing_consistent.
  - destruct (live w) as [t|] eqn:L; [|exact C].
    now apply poll_consistent.
Qed.

Lemma run_consistent (evs : list event) :
  forall w, consistent w -> consistent (run w evs).
Proof.
  induction evs as [|e evs IH]; intros w C; [exact C|].
  cbn. apply IH. now apply step_consistent.
Qed.

(** The callback of a live timer always sees the current cursor and the
    current number of sentences. *)
Lemma closure_is_fresh (history : list event) (t : interval) :
  live (run mount history) = Some t ->
  cl_lastKey t = lastKey (st (run mount history)) /\
  length (cl_sentences t) = length (sentences (st (run mount history))) /\
  Some (cl_taskId t) = taskId (st (run mount history)).
Proof.
  intros L.
  destruct (consistent_closure _ _ (run_consistent history _ mount_consistent) L)
    as (Hd & _ & _).
  injection Hd as H1 H2 H3. auto.
Qed.

End Invariants.

(** ** The accumulated transcript *)

Section Transcript.

Lemma delivered_batch (w : world) (t : interval) rs rt :
  live w = Some t -> delivered w (Tick rs rt) = batch rs rt.
Proof. intros L. unfold delivered, batch. rewrite L. now destruct rs, rt. Qed.

Lemma ticks_append (l : list (fetched status_response * fetched transcript_response)) :
  forall w,
    consistent w ->
    sentences (st (run w (ticks_of l))) =
    sentences (st w) ++
    number_from (length (sentences (st w)) + 1) (received w (ticks_of l)).
Proof.
  induction l as [|[rs rt] l IH]; intros w C.
  - cbn. now rewrite app_nil_r.
  - cbn [ticks_of map run fold_left received fst snd].
    change (fold_left step ?e ?x) with (run x e).
    change (map _ l) with (ticks_of l).
    rewrite (IH _ (step_consistent _ (Tick rs rt) C)).
    cbn [step]. destruct (live w) as [t|] eqn:L.
    + rewrite (delivered_batch _ _ rs rt L).
      destruct (consistent_closure _ _ C L) as (Hd & _ & _).
      injection Hd as _ _ Hlen.
      rewrite st_commit, poll_sentences, Hlen.
      rewrite number_from_app, <- app_assoc. f_equal. f_equal.
      rewrite length_app, number_from_length. f_equal. lia.
    + unfold delivered. rewrite L. now destruct rs as [?|], rt as [?|].
Qed.

(** Ticks handled one at a time (each callback finishes, and React
    commits, before the next event): from the submission of a task on,
    however the segments are spread over such ticks, the transcript is the
    segments received so far, in the order of receipt, numbered 1, 2, ...,
    N. *)
Theorem transcript_numbering (history : list event) (c : code_unit) (u : jsstring)
  (r : fetched start_response)
  (l : list (fetched status_response * fetched transcript_response)) :
  url (st (run mount history)) = c :: u ->
  let w0 := startProcessing r (run mount history) in
  let w := run w0 (ticks_of l) in
  sentences (st w) = number_from 1 (received w0 (ticks_of l)) /\
  map sentence_number (sentences (st w)) = seq 1 (length (received w0 (ticks_of l))) /\
  map fields (sentences (st w)) = received w0 (ticks_of l).
Proof.
  intros Hu w0 w.
  assert (C0 : consistent w0)
    by (apply startProcessing_consistent, run_consistent, mount_consistent).
  assert (S0 : sentences (st w0) = []).
  { unfold w0, startProcessing. rewrite Hu. rewrite st_commit.
    match goal with
    | |- sentences (st (try_catch ?b ?h ?w1)) = _ =>
        replace (sentences (st (try_catch b h w1))) with (sentences (st w1))
          by (now destruct r)
    end.
    now rewrite st_commit. }
  assert (E : sentences (st w) = number_from 1 (received w0 (ticks_of l))).
  { unfold w. rewrite (ticks_append l w0 C0), S0. reflexivity. }
  rewrite E. split; [reflexivity|]. split.
  - apply number_from_numbers.
  - apply number_from_fields.
Qed.

End Transcript.

(** ** Progress *)

Section Progress.

Lemma poll_progress (t : interval) (s : status_response)
  (rt : fetched transcript_response) (w : world) :
  progress (st (pollInterval t (Resolved s) rt w)) =
  if (0 <? total_chunks s)%float
  then Math_round (processed_chunks s / total_chunks s * 100)%float
  else progress (st w).
Proof.
  poll_unfold. destruct rt as [d|]; poll_paths; reflexivity.
Qed.

Example Math_round_ties :
  Math_round 0.5 = 1%float /\ Math_round 2.5 = 3%float /\
  Math_round (-2.5) = (-2)%float /\ Math_round (-0.5) = (-0)%float /\
  Math_round 25 = 25%float /\ Math_round nan = nan.
Proof. vm_compute. repeat split; reflexivity. Qed.

(** The percentage is computed in binary64: 29 of 200 chunks make
    14.499999999999998, which rounds to 14. *)
Example progress_29_of_200 :
  Math_round (29 / 200 * 100)%float = 14%float.
Proof. vm_compute. reflexivity. Qed.

(** C4. A tick whose status request resolves sets Progress to
    Math.round(processed_chunks / total_chunks * 100) when total_chunks is
    positive, whatever becomes of the rest of the tick, and leaves Progress as
    it was otherwise: 1 of 4 chunks gives 25, and with 0 of 0 chunks nothing
    is divided and Progress is unchanged. The value is rounded to a whole
    number, a half going up, on the binary64 product: 1 of 3 gives 33, 2 of
    3 gives 67, 1 of 8 gives 13, 23 of 40 gives 57 and 29 of 200 gives 14. *)
Theorem tick_progress (t : interval) (rt : fetched transcript_response) (w : world) :
  (forall s,
     progress (st (commit (pollInterval t (Resolved s) rt w))) =
     if (0 <? total_chunks s)%float
     then Math_round (processed_chunks s / total_chunks s * 100)%float
     else progress (st w)) /\
  (forall label,
     progress (st (commit (pollInterval t
       (Resolved {| status := label; processed_chunks := 1; total_chunks := 4 |})
       rt w))) = 25%float) /\
  (forall label,
     progress (st (commit (pollInterval t
       (Resolved {| status := label; processed_chunks := 0; total_chunks := 0 |})
       rt w))) = progress (st w)) /\
  (forall label,
     progress (st (commit (pollInterval t
       (Resolved {| status := label; processed_chunks := 1; total_chunks := 3 |})
       rt w))) = 33%float) /\
  (forall label,
     progress (st (commit (pollInterval t
       (Resolved {| status := label; processed_chunks := 2; total_chunks := 3 |})
       rt w))) = 67%float) /\
  (forall label,
     progress (st (commit (pollInterval t
       (Resolved {| status := label; processed_chunks := 1; total_chunks := 8 |})
       rt w))) = 13%float) /\
  (forall label,
     progress (st (commit (pollInterval t
       (Resolved {| status := label; processed_chunks := 23; total_chunks := 40 |})
       rt w))) = 57%float) /\
  (forall label,
     progress (st (commit (pollInterval t
       (Resolved {| status := label; processed_chunks := 29; total_chunks := 200 |})
       rt w))) = 14%float).
Proof.
  repeat split; intros; rewrite st_commit, poll_progress; reflexivity.
Qed.

Lemma startProcessing_progress (r : fetched start_response) (w : world) :
  progress (st (startProcessing r w)) = progress (st w).
Proof.
  unfold startProcessing. destruct (url (st w)) as [|x u]; [reflexivity|].
  rewrite st_commit.
  match goal with
  | |- progress (st (try_catch ?b ?h ?w1)) = _ =>
      replace (progress (st (try_catch b h w1))) with (progress (st w1))
        by (now destruct r)
  end.
  now rewrite st_commit.
Qed.

End Progress.

(** ** Submission *)

Section Submission.

(** C5. With an empty URL [startProcessing] does nothing. Otherwise it
    sends exactly one start-processing request, and leaves the transcript
    empty and the cursor null; when the request resolves, the task handle of
    the response is stored and the Processing Flag is true, nothing being
    logged; when it fails, the error is logged and the Processing Flag is
    false, with no second request. *)
Theorem startProcessing_outcome (r : fetched start_response) (w : world) :
  match url (st w) with
  | [] => startProcessing r w = w
  | _ :: _ =>
      let w' := startProcessing r w in
      requests w' = requests w ++ [Fetch start_processing_url (Some (url (st w)))] /\
      sentences (st w') = [] /\
      lastKey (st w') = None /\
      match r with
      | Resolved data =>
          taskId (st w') = task_id data /\
          isProcessing (st w') = true /\
          console w' = console w
      | Rejected =>
          taskId (st w') = taskId (st w) /\
          isProcessing (st w') = false /\
          console w' = console w ++ [ConsoleError (js "Failed to start processing:")]
      end
  end.
Proof.
  unfold startProcessing. destruct (url (st w)) as [|x u] eqn:Hu; [reflexivity|].
  cbv zeta. rewrite requests_commit, console_commit, !st_commit.
  set (w1 := commit _).
  assert (R1 : requests w1 = requests w) by (unfold w1; now rewrite requests_commit).
  assert (C1 : console w1 = console w) by (unfold w1; now rewrite console_commit).
  assert (T1 : taskId (st w1) = taskId (st w)) by (unfold w1; now rewrite st_commit).
  assert (S1 : sentences (st w1) = []) by (unfold w1; now rewrite st_commit).
  assert (K1 : lastKey (st w1) = None) by (unfold w1; now rewrite st_commit).
  assert (P1 : isProcessing (st w1) = true) by (unfold w1; now rewrite st_commit).
  destruct r as [data|]; cbn -[js];
    unfold requests, console in *; cbn -[js];
    rewrite ?filter_app, ?R1, ?C1; cbn -[js]; rewrite ?app_nil_r;
    repeat split; auto.
Qed.

End Submission.

(** ** The cursor *)

Section Cursor.

Lemma poll_lastKey (t : interval) rs rt (w : world) :
  lastKey (st (pollInterval t rs rt w)) =
  match batch rs rt with
  | [] => lastKey (st w)
  | _ :: _ =>
      match rt with
      | Resolved d => data_last_key d
      | Rejected => lastKey (st w)
      end
  end.
Proof. poll_cases rs rt; reflexivity. Qed.

Lemma last_cons_default (A : Type) (l : list A) :
  forall x d d', last (x :: l) d = last (x :: l) d'.
Proof.
  induction l as [|y l IH]; intros x d d'; [reflexivity|].
  change (last (y :: l) d = last (y :: l) d'). apply IH.
Qed.

Lemma last_app_cons (A : Type) (a : list A) (x : A) (b : list A) (d : A) :
  last (a ++ x :: b) d = last (x :: b) x.
Proof.
  induction a as [|y a IH]; cbn [app].
  - apply last_cons_default.
  - destruct (a ++ x :: b) eqn:E; [now destruct a|]. exact IH.
Qed.

Lemma last_number_from (l : list server_sentence) :
  forall n x d, fields (last (number_from n (x :: l)) d) = last (x :: l) x.
Proof.
  induction l as [|y l IH]; intros n x d; [reflexivity|].
  rewrite number_from_cons.
  change (last (x :: y :: l) x) with (last (y :: l) x).
  rewrite (last_cons_default _ l y x y), <- (IH (S n) y d).
  rewrite (number_from_cons (S n) y l). reflexivity.
Qed.

(** After an append the last key of the transcript is that of the batch. *)
Lemma last_key_of_append (prev : list sentence) (n : nat) (x : server_sentence)
  (l : list server_sentence) :
  last_key_of (prev ++ number_from n (x :: l)) = Some (key (last (x :: l) x)).
Proof.
  unfold last_key_of.
  destruct (prev ++ number_from n (x :: l)) as [|y q] eqn:E.
  - rewrite number_from_cons in E. now destruct prev.
  - rewrite <- E. rewrite number_from_cons, last_app_cons, <- number_from_cons.
    now rewrite last_number_from.
Qed.

(** C3, as stated, fails: the tick appends the sentences k1 and k2, and the
    cursor becomes the [last_key] of the response, which is not k2. *)
Lemma cursor_is_not_last_key :
  let w := run mount (session_start ++ [Tick (Resolved processing_status)
                                            (Resolved opaque_cursor_batch)]) in
  last_key_of (sentences (st w)) = Some (js "k2") /\
  lastKey (st w) = Some (js "page-2").
Proof. vm_compute. split; reflexivity. Qed.

(** C3, amended. After a tick whose transcript response holds new
    sentences, the cursor is the [last_key] value of that response; the last
    sentence of the transcript is then the last one of the response, and the
    cursor is its key exactly when the response's [last_key] is that key. *)
Theorem cursor_after_tick (history : list event) (t : interval)
  (s : status_response) (d : transcript_response)
  (x : server_sentence) (l : list server_sentence) :
  let w := run mount history in
  live w = Some t ->
  data_sentences d = Some (x :: l) ->
  let w' := step w (Tick (Resolved s) (Resolved d)) in
  lastKey (st w') = data_last_key d /\
  last_key_of (sentences (st w')) = Some (key (last (x :: l) x)) /\
  (lastKey (st w') = last_key_of (sentences (st w')) <->
   data_last_key d = Some (key (last (x :: l) x))).
Proof.
  intros w L Hd w'.
  assert (K : lastKey (st w') = data_last_key d).
  { unfold w'. cbn [step]. rewrite L, st_commit, poll_lastKey.
    unfold batch. now rewrite Hd. }
  assert (S : last_key_of (sentences (st w')) = Some (key (last (x :: l) x))).
  { unfold w'. cbn [step]. rewrite L, st_commit, poll_sentences.
    unfold batch. rewrite Hd. apply last_key_of_append. }
  rewrite K, S. repeat split; auto.
Qed.

Lemma cursor_after_tick_witness :
  lastKey (st (run mount (session_start ++ [Tick (Resolved processing_status)
                                                 (Resolved first_batch)])))
  = Some (js "k2").
Proof.
  unfold run. rewrite fold_left_app.
  refine (proj1 (cursor_after_tick session_start
            {| interval_id := 1; delay := 2500; cl_taskId := js "task-1";
               cl_lastKey := None; cl_sentences := [] |}
            processing_status first_batch
            (segment "k1" "00:00:01") [segment "k2" "00:01:05"] _ _)).
  - vm_compute. reflexivity.
  - reflexivity.
Defined.

(** With a backend whose [last_key] is always the key of the last sentence
    it sends, the cursor stays the key of the last sentence of the
    transcript, and null while the transcript is empty. *)
Lemma cursor_invariant (l : list (fetched status_response * fetched transcript_response)) :
  forall w,
    consistent w ->
    Forall cursor_is_last_key l ->
    lastKey (st w) = last_key_of (sentences (st w)) ->
    lastKey (st (run w (ticks_of l))) = last_key_of (sentences (st (run w (ticks_of l)))).
Proof.
  induction l as [|[rs rt] l IH]; intros w C Hl Hw; [exact Hw|].
  inversion Hl as [|? ? Hp Hl']; subst.
  cbn [ticks_of map run fold_left fst snd].
  change (fold_left step ?e ?x) with (run x e). change (map _ l) with (ticks_of l).
  apply IH; [now apply step_consistent|exact Hl'|].
  cbn [step]. destruct (live w) as [t|]; [|exact Hw].
  rewrite st_commit, poll_lastKey, poll_sentences.
  unfold cursor_is_last_key in Hp. cbn [snd] in Hp.
  unfold batch. destruct rs as [s|]; [|now rewrite app_nil_r].
  destruct rt as [d|]; [|now rewrite app_nil_r].
  destruct (data_sentences d) as [[|x q]|]; try (now rewrite app_nil_r).
  now rewrite last_key_of_append.
Qed.

End Cursor.

(** ** Completion and failure of a tick *)

Section Completion.






(** The catch block only writes to the console. *)
Lemma poll_catch_state (w : world) :
  st (snd (poll_catch w)) = st w /\
  live (snd (poll_catch w)) = live w /\
  trace (snd (poll_catch w)) = trace w ++ [ConsoleError (js "Polling error:")].
Proof. repeat split. Qed.

Lemma poll_failed (t : interval) rs rt (w : world) :
  rs = Rejected \/ rt = Rejected ->
  let w1 := pollInterval t rs rt w in
  live w1 = live w /\
  deps_of (st w1) = deps_of (st w) /\
  url (st w1) = url (st w) /\
  isProcessing (st w1) = isProcessing (st w) /\
  sentences (st w1) = sentences (st w) /\
  console w1 = console w ++ [ConsoleError (js "Polling error:")] /\
  (rs = Rejected -> st w1 = st w).
Proof.
  intros H. unfold console.
  poll_cases rs rt;
    try (destruct H as [H|H]; discriminate H);
    rewrite ?filter_app; cbn -[js]; rewrite ?app_nil_r;
    repeat split; try reflexivity; intros E; discriminate E.
Qed.

(** C7. When a request of a tick fails, the error is logged and nothing
    else happens: the same 2500 ms timer stays live, so the next tick comes
    as usual, the Processing Flag, the transcript, the cursor and the task
    handle are as before, and the catch block itself changes no state. *)
Theorem failed_tick_logged_only (history : list event) (t : interval)
  (rs : fetched status_response) (rt : fetched transcript_response) :
  let w := run mount history in
  live w = Some t ->
  rs = Rejected \/ rt = Rejected ->
  let w' := step w (Tick rs rt) in
  live w' = Some t /\ delay t = 2500 /\
  isProcessing (st w') = isProcessing (st w) /\
  sentences (st w') = sentences (st w) /\
  lastKey (st w') = lastKey (st w) /\
  taskId (st w') = taskId (st w) /\
  console w' = console w ++ [ConsoleError (js "Polling error:")] /\
  (forall v, st (snd (poll_catch v)) = st v) /\
  (rs = Rejected -> st w' = st w).
Proof.
  intros w L H w'.
  destruct (poll_failed t rs rt w H) as (L1 & D1 & U1 & P1 & S1 & C1 & R1).
  destruct (consistent_closure w t (run_consistent history _ mount_consistent) L)
    as (_ & Hdelay & Er).
  destruct (poll_frame t rs rt w) as (Er1 & _ & _).
  assert (Ec : commit (pollInterval t rs rt w) = pollInterval t rs rt w).
  { apply (commit_same_deps _ (Some (interval_id t))). now rewrite Er1, D1. }
  assert (Ew : w' = pollInterval t rs rt w)
    by (unfold w'; cbn [step]; now rewrite L, Ec).
  rewrite Ew. injection D1 as D1 D2 _.
  repeat split; try assumption; try congruence.
Qed.

Lemma failed_tick_logged_only_witness :
  let w := run mount session_start in
  let w' := step w (Tick Rejected Rejected) in
  live w' = live w /\ isProcessing (st w') = true /\ st w' = st w.
Proof.
  cbv zeta.
  pose proof (failed_tick_logged_only session_start
            {| interval_id := 1; delay := 2500; cl_taskId := js "task-1";
               cl_lastKey := None; cl_sentences := [] |}
            Rejected Rejected) as H.
  cbv zeta in H.
  destruct H as (Hl & _ & Hp & _ & _ & _ & _ & _ & Hs);
    [vm_compute; reflexivity|now left|].
  split; [rewrite Hl; vm_compute; reflexivity|].
  split; [rewrite Hp; vm_compute; reflexivity|].
  now apply Hs.
Defined.

End Completion.

(** ** Timestamp seek *)

Section Seek.

Lemma seconds_exact_true : seconds_exact = true.
Proof. vm_compute. reflexivity. Qed.

Lemma in_two_digit_values (v : Z) : (0 <= v < 100)%Z -> In v two_digit_values.
Proof.
  intros H. unfold two_digit_values. apply in_map_iff.
  exists (Z.to_nat v). split; [lia|]. apply in_seq. lia.
Qed.

Lemma seconds_exact_spec :
  seconds_exact = true ->
  forall h m s,
    In h two_digit_values -> In m two_digit_values -> In s two_digit_values ->
    exact_at h m s = true.
Proof.
  unfold seconds_exact. intros T h m s Hh Hm Hs.
  rewrite forallb_forall in T. specialize (T h Hh).
  rewrite forallb_forall in T. specialize (T m Hm).
  rewrite forallb_forall in T. exact (T s Hs).
Qed.

Lemma seconds_sum_exact (h m s : Z) :
  (0 <= h < 100)%Z -> (0 <= m < 100)%Z -> (0 <= s < 100)%Z ->
  (float_of_Z h * 3600 + float_of_Z m * 60 + float_of_Z s)%float
  = float_of_Z (h * 3600 + m * 60 + s).
Proof.
  intros Hh Hm Hs. apply Leibniz.eqb_spec.
  exact (seconds_exact_spec seconds_exact_true h m s
           (in_two_digit_values h Hh) (in_two_digit_values m Hm)
           (in_two_digit_values s Hs)).
Qed.

Lemma digit_range (c : code_unit) (d : Z) :
  digit c = Some d -> (0 <= d <= 9)%Z /\ N.eqb c 58 = false.
Proof.
  unfold digit. destruct (N.leb 48 c) eqn:A; [|discriminate].
  destruct (N.leb c 57) eqn:B; [|discriminate].
  cbn. intros [= <-]. apply N.leb_le in A, B. split; [lia|].
  apply N.eqb_neq. lia.
Qed.

(** A field of two decimal digits: no colon in it, a value below 100. *)
Lemma two_digits (f : jsstring) (v : Z) :
  length f = 2 -> decimal 0 f = Some v ->
  (0 <= v < 100)%Z /\ Forall (fun c => N.eqb c 58 = false) f /\
  Number f = Some (float_of_Z v).
Proof.
  destruct f as [|a [|b [|? ?]]]; try discriminate. intros _.
  unfold Number. cbn [length Nat.leb decimal].
  destruct (digit a) as [da|] eqn:Da; [|discriminate].
  destruct (digit b) as [db|] eqn:Db; [|discriminate].
  intros E. assert (Hv : v = (10 * (10 * 0 + da) + db)%Z) by congruence.
  apply digit_range in Da as [Ra Ca]. apply digit_range in Db as [Rb Cb].
  split; [lia|]. split; [now repeat constructor|]. now rewrite Hv.
Qed.

Lemma split_field (f rest : jsstring) :
  Forall (fun c => N.eqb c 58 = false) f ->
  split 58%N (f ++ 58%N :: rest) = f :: split 58%N rest.
Proof.
  induction 1 as [|c f Hc _ IH]; [reflexivity|].
  cbn [app split]. now rewrite Hc, IH.
Qed.

Lemma split_last_field (f : jsstring) :
  Forall (fun c => N.eqb c 58 = false) f -> split 58%N f = [f].
Proof.
  induction 1 as [|c f Hc _ IH]; [reflexivity|].
  cbn [split]. now rewrite Hc, IH.
Qed.

Lemma total_seconds_hh_mm_ss (hh mm ss : jsstring) (h m s : Z) :
  length hh = 2 -> decimal 0 hh = Some h ->
  length mm = 2 -> decimal 0 mm = Some m ->
  length ss = 2 -> decimal 0 ss = Some s ->
  totalSeconds (hh ++ js ":" ++ mm ++ js ":" ++ ss)
  = Some (float_of_Z (h * 3600 + m * 60 + s)).
Proof.
  intros Lh Dh Lm Dm Ls Ds.
  destruct (two_digits hh h Lh Dh) as (Rh & Ch & Nh).
  destruct (two_digits mm m Lm Dm) as (Rm & Cm & Nm).
  destruct (two_digits ss s Ls Ds) as (Rs & Cs & Ns).
  unfold totalSeconds.
  change (js ":") with [58%N]. cbn [app].
  rewrite (split_field hh _ Ch), (split_field mm _ Cm), (split_last_field ss Cs).
  unfold operand. cbn [nth_error]. rewrite Nh, Nm, Ns.
  now rewrite seconds_sum_exact.
Qed.

(** Without a rendered video block the guard returns at once. *)
Lemma seek_without_player :
  let w := run mount [Change shorts_url;
                      ClickStart (Resolved {| task_id := Some (js "task-1") |});
                      Tick (Resolved processing_status) (Resolved first_batch)] in
  map (fun y => start_time (fields y)) (sentences (st w))
    = [js "00:00:01"; js "00:01:05"] /\
  playerRef_current w = None /\
  seekToTime (js "00:01:05") w = Some (Normal tt, w).
Proof. vm_compute. repeat split; reflexivity. Qed.

(** C8: the code at the failing input. While the video block is rendered,
    [playerRef.current] is the iframe element, which has no [seekTo]: for a
    start time HH:MM:SS of three two-digit fields the seconds are computed
    as hours * 3600 + minutes * 60 + seconds, but the call throws and no
    seek takes place; the world is left as it was. The call throws for every
    other string as well. *)
Theorem seekToTime_throws (w : world) (player : dom_element)
  (hh mm ss : jsstring) (h m s : Z) :
  playerRef_current w = Some player ->
  length hh = 2 -> decimal 0 hh = Some h ->
  length mm = 2 -> decimal 0 mm = Some m ->
  length ss = 2 -> decimal 0 ss = Some s ->
  totalSeconds (hh ++ js ":" ++ mm ++ js ":" ++ ss)
    = Some (float_of_Z (h * 3600 + m * 60 + s)) /\
  seekToTime (hh ++ js ":" ++ mm ++ js ":" ++ ss) w = Some (Throw, w) /\
  forall timeStr, seekToTime timeStr w = Some (Throw, w).
Proof.
  intros P Lh Dh Lm Dm Ls Ds.
  split; [now apply total_seconds_hh_mm_ss|].
  assert (T : forall timeStr, seekToTime timeStr w = Some (Throw, w)).
  { intros timeStr. unfold seekToTime. rewrite P. now destruct player. }
  split; [apply T|exact T].
Qed.

Lemma seekToTime_throws_witness :
  let w := run mount (session_start ++ [Tick (Resolved processing_status)
                                            (Resolved first_batch)]) in
  totalSeconds (js "00:01:05") = Some 65%float /\
  seekToTime (js "00:01:05") w = Some (Throw, w) /\
  forall timeStr, seekToTime timeStr w = Some (Throw, w).
Proof.
  cbv zeta.
  apply (seekToTime_throws _ (HTMLIFrameElement (embed_src (js "ABCDEFGHIJK")))
           (js "00") (js "01") (js "05") 0 1 5);
    vm_compute; reflexivity.
Defined.

End Seek.

(** ** A session from start to end *)

Section Session.

(** C9: the code at the failing input. A first task is polled to
    completion, Progress standing at 100; a second submission starts a new
    task, and Progress is still 100 while the Processing Flag is true. In
    general [startProcessing] never changes Progress. *)
Theorem progress_survives_submission :
  (let w := run mount (session_start ++ [Tick (Resolved completed_status)
                                             (Resolved nothing_new)]) in
   let w' := step w (ClickStart (Resolved {| task_id := Some (js "task-2") |})) in
   progress (st w) = 100%float /\
   taskId (st w') = Some (js "task-2") /\
   isProcessing (st w') = true /\
   sentences (st w') = [] /\
   lastKey (st w') = None /\
   progress (st w') = 100%float) /\
  (forall r w, progress (st (startProcessing r w)) = progress (st w)).
Proof.
  split; [vm_compute; repeat split; reflexivity|].
  intros r w. apply startProcessing_progress.
Qed.

Lemma transcript_numbering_witness :
  map sentence_number
    (sentences (st (run (startProcessing (Resolved {| task_id := Some (js "task-1") |})
                           (run mount [Change session_url]))
                        (ticks_of [(Resolved processing_status, Resolved first_batch);
                                   (Rejected, Rejected);
                                   (Resolved completed_status, Resolved second_batch)]))))
  = [1; 2; 3].
Proof.
  refine (proj1 (proj2 (transcript_numbering [Change session_url] 104%N
                          (tl session_url) _ _ _))).
  vm_compute. reflexivity.
Defined.

(** The scenario of the specification: two sentences, then a third with
    the completed status. *)
Example session :
  let w := run mount (session_start ++
             [Tick (Resolved processing_status) (Resolved first_batch);
              Tick (Resolved completed_status) (Resolved second_batch)]) in
  extractVideoId (url (st w)) = Normal (Some (js "ABCDEFGHIJK")) /\
  map sentence_number (sentences (st w)) = [1; 2; 3] /\
  map (fun y => key (fields y)) (sentences (st w)) = [js "k1"; js "k2"; js "k3"] /\
  lastKey (st w) = Some (js "k3") /\
  isProcessing (st w) = false /\
  progress (st w) = 100%float.
Proof. vm_compute. repeat split; reflexivity. Qed.

(** The tick that completes the task and brings a sentence leaves a new
    timer, which the next tick, bringing nothing, clears. *)
Example session_end :
  let w := run mount (session_start ++
             [Tick (Resolved processing_status) (Resolved first_batch);
              Tick (Resolved completed_status) (Resolved second_batch)]) in
  option_map interval_id (live w) = Some 3 /\
  live (step w (Tick (Resolved completed_status) (Resolved nothing_new))) = None.
Proof. vm_compute. split; reflexivity. Qed.

End Session.

(** * Callbacks that overlap *)


(** ** Timers *)

Section Timers.

Lemma running_app (tr l : list effect) :
  running_intervals (tr ++ l) = fold_left timer_event l (running_intervals tr).
Proof. apply fold_left_app. Qed.

Lemma orderly_emit (e : effect) (w : world) :
  quiet e -> orderly w -> orderly (emit e w).
Proof.
  intros Q [Ok [R B]]. split; [exact Ok|]. split; [|exact B].
  unfold emit; cbn [trace live_ids live]. rewrite running_app. cbn.
  destruct e; cbn in *; try contradiction; exact R.
Qed.

Lemma orderly_with_st (f : state -> state) (w : world) :
  orderly w -> orderly (with_st f w).
Proof. intros [Ok T]. split; [exact Ok|exact T]. Qed.

Lemma orderly_clearInterval (id : nat) (w : world) :
  orderly w -> orderly (clearInterval id w).
Proof.
  intros [(d & c & E & H) [R B]]. split; [|split].
  - exists d, c. split; [exact E|]. cbn. intros t L.
    destruct (live w) as [t'|]; [|discriminate].
    destruct (Nat.eqb _ _); [discriminate|]. injection L as <-. now apply H.
  - unfold clearInterval; cbn [trace]. rewrite running_app. cbn. rewrite R.
    unfold live_ids. cbn. destruct (live w) as [t|]; [|reflexivity]. cbn.
    rewrite Nat.eqb_sym. now destruct (Nat.eqb _ _).
  - cbn. intros t L. destruct (live w) as [t'|]; [|discriminate].
    destruct (Nat.eqb _ _); [discriminate|]. injection L as <-. now apply B.
Qed.

(** The cleanup clears the timer that is live. *)
Lemma cleanup_clears (w : world) : effect_ok w -> live (cleanup w) = None.
Proof.
  intros (d & c & E & H). unfold cleanup. rewrite E.
  destruct c as [id|]; cbn.
  - destruct (live w) as [t|] eqn:L; [|reflexivity].
    destruct (H t eq_refl) as ([= ->] & _). now rewrite Nat.eqb_refl.
  - destruct (live w) as [t|]; [|reflexivity].
    now destruct (H t eq_refl) as (? & _).
Qed.

Lemma orderly_cleanup (w : world) : orderly w -> orderly (cleanup w).
Proof.
  intros O. unfold cleanup. destruct (effect_run w) as [[d [id|]]|]; auto.
  now apply orderly_clearInterval.
Qed.

Lemma orderly_effect_body (w : world) :
  timers_accounted w -> live w = None -> orderly (effect_body w).
Proof.
  intros [R B] L. unfold effect_body.
  destruct (taskId (st w)) as [[|x tid]|] eqn:Et.
  - split; [|split; [exact R|exact B]].
    exists (deps_of (st w)), None. split; [reflexivity|]. cbn. rewrite L. discriminate.
  - split; [|split].
    + exists (deps_of (st w)), (Some (next_id w)). split; [reflexivity|].
      intros t [= <-]. cbn. unfold closure_deps, deps_of. cbn. now rewrite Et.
    + cbn [trace]. rewrite running_app, R. unfold live_ids. now rewrite L.
    + intros t [= <-]. cbn. split; [lia|discriminate].
  - split; [|split; [exact R|exact B]].
    exists (deps_of (st w)), None. split; [reflexivity|]. cbn. rewrite L. discriminate.
Qed.

Lemma orderly_commit (w : world) : orderly w -> orderly (commit w).
Proof.
  intros O. pose proof O as [(d & c & E & H) _]. unfold commit. rewrite E.
  destruct (deps_eqb d (deps_of (st w))); [exact O|].
  apply orderly_effect_body.
  - now apply orderly_cleanup.
  - apply cleanup_clears. now destruct O.
Qed.

Lemma orderly_mount : orderly mount.
Proof.
  unfold mount, commit. cbn [effect_run]. apply orderly_effect_body.
  - split; [reflexivity|]. cbn. discriminate.
  - reflexivity.
Qed.

Lemma keeps_ret (P : world -> Prop) (A : Type) (a : A) : keeps P (ret a).
Proof. intros w H. exact H. Qed.

Lemma keeps_bind (P : world -> Prop) (A B : Type) (a : action A) (f : A -> action B) :
  keeps P a -> (forall x, keeps P (f x)) -> keeps P (bind a f).
Proof.
  intros Ha Hf w H. unfold bind. specialize (Ha w H).
  destruct (a w) as [[x|] w']; cbn in *; [now apply Hf|exact Ha].
Qed.

Lemma keeps_lift (P : world -> Prop) (f : world -> world) :
  (forall w, P w -> P (f w)) -> keeps P (lift f).
Proof. intros Hf w H. now apply Hf. Qed.

Lemma keeps_when (P : world -> Prop) (b : bool) (a : action unit) :
  keeps P a -> keeps P (when b a).
Proof. intros H. destruct b; [exact H|apply keeps_ret]. Qed.

Lemma keeps_try_catch (P : world -> Prop) (body handler : action unit) (w : world) :
  keeps P body -> keeps P handler -> P w -> P (try_catch body handler w).
Proof.
  intros Hb Hh H. unfold try_catch. specialize (Hb w H).
  destruct (body w) as [[x|] w']; cbn in *; [exact Hb|now apply Hh].
Qed.

Lemma keeps_fetch_json (A : Type) (resource : jsstring) (post : option jsstring)
  (r : fetched A) : keeps orderly (fetch_json resource post r).
Proof. intros w H. unfold fetch_json. cbn. now apply orderly_emit. Qed.

Lemma keeps_console_error (label : jsstring) : keeps orderly (console_error label).
Proof. apply keeps_lift. intros w H. now apply orderly_emit. Qed.

Lemma keeps_poll_body (t : interval) rs rt : keeps orderly (poll_body t rs rt).
Proof.
  unfold poll_body.
  apply keeps_bind; [apply keeps_fetch_json|]. intros s.
  apply keeps_bind.
  { apply keeps_when, keeps_lift. intros w. apply orderly_with_st. }
  intros _. apply keeps_bind; [apply keeps_fetch_json|]. intros d.
  apply keeps_bind.
  { destruct (data_sentences d) as [[|x l]|]; try apply keeps_ret.
    apply keeps_bind; [|intros _]; apply keeps_lift; intros w; apply orderly_with_st. }
  intros _. apply keeps_when, keeps_bind; [|intros _]; apply keeps_lift; intros w.
  - apply orderly_clearInterval.
  - apply orderly_with_st.
Qed.

Lemma orderly_pollInterval (t : interval) rs rt (w : world) :
  orderly w -> orderly (pollInterval t rs rt w).
Proof.
  apply keeps_try_catch; [apply keeps_poll_body|apply keeps_console_error].
Qed.

Lemma orderly_startProcessing (r : fetched start_response) (w : world) :
  orderly w -> orderly (startProcessing r w).
Proof.
  intros O. unfold startProcessing. destruct (url (st w)) as [|x u]; [exact O|].
  apply orderly_commit, keeps_try_catch.
  - apply keeps_bind; [apply keeps_fetch_json|]. intros d.
    apply keeps_lift. intros v. apply orderly_with_st.
  - apply keeps_bind; [apply keeps_console_error|]. intros _.
    apply keeps_lift. intros v. apply orderly_with_st.
  - apply orderly_commit.
    assert (K : keeps orderly (bind (setIsProcessing true)
                  (fun _ => bind (setSentences (fun _ => []))
                                 (fun _ => setLastKey None)))).
    { apply keeps_bind; [|intros _; apply keeps_bind; [|intros _]];
        apply keeps_lift; intros v; apply orderly_with_st. }
    exact (K w O).
Qed.

Lemma orderly_step (w : world) (e : event) : orderly w -> orderly (step w e).
Proof.
  intros O. destruct e as [u|r|rs rt]; cbn [step].
  - destruct (isProcessing (st w)); [exact O|].
    apply orderly_commit. now apply orderly_with_st.
  - destruct (isProcessing (st w)); [exact O|]. now apply orderly_startProcessing.
  - destruct (live w) as [t|]; [|exact O].
    now apply orderly_commit, orderly_pollInterval.
Qed.

Lemma orderly_run (evs : list event) : forall w, orderly w -> orderly (run w evs).
Proof.
  induction evs as [|e evs IH]; intros w O; [exact O|].
  cbn. apply IH. now apply orderly_step.
Qed.

End Timers.

(** ** Callbacks in flight *)

Section InFlight.

(** The callback of [pollInterval] is its three parts one after the other. *)
Lemma poll_parts (t : interval) rs rt (w : world) :
  pollInterval t rs rt w =
  match rs with
  | Resolved status_ =>
      poll_transcript_settled t status_ rt
        (poll_status_settled t rs (poll_fired t w))
  | Rejected => poll_status_settled t rs (poll_fired t w)
  end.
Proof.
  unfold poll_transcript_settled, poll_status_settled, poll_fired, settled.
  poll_cases rs rt; reflexivity.
Qed.

Lemma commit_sound (w : world) : orderly w -> sound (commit w).
Proof.
  intros O. split; [now apply orderly_commit|].
  pose proof O as [(d & c & E & H) _]. rewrite st_commit.
  unfold commit. rewrite E.
  destruct (deps_eqb d (deps_of (st w))) eqn:Ed.
  - apply deps_eqb_eq in Ed. subst d. now exists c.
  - unfold effect_body. rewrite st_cleanup.
    destruct (taskId (st w)) as [[|x tid]|]; cbn; eexists; reflexivity.
Qed.

Lemma sound_mount : sound mount.
Proof. split; [apply orderly_mount|]. now exists None. Qed.

Lemma keeps_settled (P : world -> Prop) (A : Type) (r : fetched A) :
  keeps P (settled r).
Proof. intros w H. exact H. Qed.

Lemma orderly_poll_fired (t : interval) (w : world) :
  orderly w -> orderly (poll_fired t w).
Proof. intros O. now apply orderly_emit. Qed.

Lemma orderly_poll_status_settled (t : interval) rs (w : world) :
  orderly w -> orderly (poll_status_settled t rs w).
Proof.
  apply keeps_try_catch; [|apply keeps_console_error].
  apply keeps_bind; [apply keeps_settled|]. intros s.
  apply keeps_bind.
  { apply keeps_when, keeps_lift. intros v. apply orderly_with_st. }
  intros _. apply keeps_lift. intros v H. now apply orderly_emit.
Qed.

Lemma orderly_poll_transcript_settled (t : interval) s rt (w : world) :
  orderly w -> orderly (poll_transcript_settled t s rt w).
Proof.
  apply keeps_try_catch; [|apply keeps_console_error].
  apply keeps_bind; [apply keeps_settled|]. intros d.
  apply keeps_bind.
  { destruct (data_sentences d) as [[|x l]|]; try apply keeps_ret.
    apply keeps_bind; [|intros _]; apply keeps_lift; intros v; apply orderly_with_st. }
  intros _. apply keeps_when, keeps_bind; [|intros _]; apply keeps_lift; intros v.
  - apply orderly_clearInterval.
  - apply orderly_with_st.
Qed.

Lemma sound_step (w : world) (e : event) : sound w -> sound (step w e).
Proof.
  intros S. pose proof S as [O _]. destruct e as [u|r|rs rt]; cbn [step].
  - destruct (isProcessing (st w)); [exact S|].
    apply commit_sound. now apply orderly_with_st.
  - destruct (isProcessing (st w)); [exact S|].
    unfold startProcessing. destruct (url (st w)) as [|x u]; [exact S|].
    apply commit_sound, keeps_try_catch.
    + apply keeps_bind; [apply keeps_fetch_json|]. intros d.
      apply keeps_lift. intros v. apply orderly_with_st.
    + apply keeps_bind; [apply keeps_console_error|]. intros _.
      apply keeps_lift. intros v. apply orderly_with_st.
    + apply orderly_commit.
      assert (K : keeps orderly (bind (setIsProcessing true)
                    (fun _ => bind (setSentences (fun _ => []))
                                   (fun _ => setLastKey None)))).
      { apply keeps_bind; [|intros _; apply keeps_bind; [|intros _]];
          apply keeps_lift; intros v; apply orderly_with_st. }
      exact (K w O).
  - destruct (live w) as [t|]; [|exact S].
    now apply commit_sound, orderly_pollInterval.
Qed.

Lemma sound_run (evs : list event) : forall w, sound w -> sound (run w evs).
Proof.
  induction evs as [|e evs IH]; intros w S; [exact S|].
  cbn. apply IH. now apply sound_step.
Qed.

Lemma sound_async_step (a : async) (e : async_event) :
  sound (now a) -> sound (now (async_step a e)).
Proof.
  intros S. pose proof S as [O C]. destruct e as [u|r| |i rs|i rt]; cbn [async_step now].
  - now apply sound_step.
  - now apply sound_step.
  - destruct (live (now a)) as [t|]; [|exact S]. cbn [now].
    split; [now apply orderly_poll_fired|exact C].
  - destruct (nth_error (callbacks a) i) as [[t [s|]]|]; try exact S.
    cbn [now]. now apply commit_sound, orderly_poll_status_settled.
  - destruct (nth_error (callbacks a) i) as [[t [s|]]|]; try exact S.
    cbn [now]. now apply commit_sound, orderly_poll_transcript_settled.
Qed.

Lemma sound_async_run (evs : list async_event) :
  forall a, sound (now a) -> sound (now (async_run a evs)).
Proof.
  induction evs as [|e evs IH]; intros a S; [exact S|].
  cbn. apply IH. now apply sound_async_step.
Qed.

(** What a sound world says of its live timer. *)
Lemma sound_closure (w : world) (t : interval) :
  sound w -> live w = Some t ->
  taskId (st w) = Some (cl_taskId t) /\ cl_taskId t <> [] /\
  cl_lastKey t = lastKey (st w) /\
  length (cl_sentences t) = length (sentences (st w)) /\
  delay t = 2500 /\
  effect_run w = Some (deps_of (st w), Some (interval_id t)) /\
  interval_id t < next_id w.
Proof.
  intros [[(d & c & E & H) [_ B]] (c' & E')] L.
  rewrite E in E'. injection E' as -> ->.
  destruct (H t L) as (-> & Hd & Hy). destruct (B t L) as [Hi Hne].
  injection Hd as H1 H2 H3. repeat split; auto.
Qed.

(** The parts of the callback and the state. *)
Lemma poll_fired_state (t : interval) (w : world) :
  st (poll_fired t w) = st w /\ live (poll_fired t w) = live w /\
  effect_run (poll_fired t w) = effect_run w.
Proof. repeat split. Qed.

Lemma poll_status_settled_frame (t : interval) rs (w : world) :
  let w' := poll_status_settled t rs w in
  deps_of (st w') = deps_of (st w) /\ sentences (st w') = sentences (st w) /\
  lastKey (st w') = lastKey (st w) /\ taskId (st w') = taskId (st w) /\
  url (st w') = url (st w) /\ isProcessing (st w') = isProcessing (st w) /\
  live w' = live w /\ effect_run w' = effect_run w /\ next_id w' = next_id w.
Proof.
  unfold poll_status_settled, settled, try_catch, poll_catch, console_error,
    bind, when, lift, ret, setProgress.
  destruct rs as [s|]; cbn; [destruct (0 <? total_chunks s)%float; cbn|];
    repeat split; reflexivity.
Qed.

Lemma poll_transcript_settled_sentences (t : interval) s rt (w : world) :
  sentences (st (poll_transcript_settled t s rt w)) =
  sentences (st w) ++ number_from (length (cl_sentences t) + 1) (batch (Resolved s) rt).
Proof.
  unfold poll_transcript_settled, settled, batch. poll_unfold.
  destruct rt as [d|]; poll_paths; rewrite ?app_nil_r; reflexivity.
Qed.

Lemma poll_transcript_settled_lastKey (t : interval) s rt (w : world) :
  lastKey (st (poll_transcript_settled t s rt w)) =
  match batch (Resolved s) rt with
  | [] => lastKey (st w)
  | _ :: _ =>
      match rt with
      | Resolved d => data_last_key d
      | Rejected => lastKey (st w)
      end
  end.
Proof.
  unfold poll_transcript_settled, settled, batch. poll_unfold.
  destruct rt as [d|]; poll_paths; reflexivity.
Qed.

Lemma poll_transcript_settled_frame (t : interval) s rt (w : world) :
  let w' := poll_transcript_settled t s rt w in
  taskId (st w') = taskId (st w) /\ url (st w') = url (st w) /\
  progress (st w') = progress (st w) /\
  effect_run w' = effect_run w /\ next_id w' = next_id w.
Proof.
  unfold poll_transcript_settled, settled. poll_unfold.
  destruct rt as [d|]; poll_paths; repeat split; reflexivity.
Qed.

(** A tick on its own is the tick of [step]: with nothing else in flight,
    the firing of the timer followed at once by the settling of its two
    requests leaves the world as [step] does, and nothing in flight. *)
Lemma tick_alone_is_tick (w : world) rs rt :
  sound w ->
  async_run {| now := w; callbacks := [] |} (tick_alone rs rt)
  = {| now := step w (Tick rs rt); callbacks := [] |}.
Proof.
  intros S. unfold tick_alone, async_run. cbn [fold_left async_step now callbacks step].
  destruct (live w) as [t|] eqn:L; [|reflexivity].
  cbn [now callbacks app nth_error].
  rewrite poll_parts. destruct rs as [s|]; cbn [replace_nth remove_nth nth_error].
  - f_equal. f_equal. f_equal.
    destruct (sound_closure w t S L) as (_ & _ & _ & _ & _ & Er & _).
    destruct (poll_status_settled_frame t (Resolved s) (poll_fired t w))
      as (Hd & _ & _ & _ & _ & _ & _ & He & _).
    apply (commit_same_deps _ (Some (interval_id t))).
    rewrite He, Hd. exact Er.
  - reflexivity.
Qed.

Lemma async_run_app (l1 l2 : list async_event) (a : async) :
  async_run a (l1 ++ l2) = async_run (async_run a l1) l2.
Proof. apply fold_left_app. Qed.

(** So a history of [step] is the history in which every tick is on its
    own. *)
Lemma one_at_a_time_run (evs : list event) :
  forall w, sound w ->
    async_run {| now := w; callbacks := [] |} (one_at_a_time evs)
    = {| now := run w evs; callbacks := [] |}.
Proof.
  induction evs as [|e evs IH]; intros w S; [reflexivity|].
  change (one_at_a_time (e :: evs))
    with (match e with
          | Change u => [Typing u]
          | ClickStart r => [Clicking r]
          | Tick rs rt => tick_alone rs rt
          end ++ one_at_a_time evs).
  rewrite async_run_app.
  assert (E : async_run {| now := w; callbacks := [] |}
                match e with
                | Change u => [Typing u]
                | ClickStart r => [Clicking r]
                | Tick rs rt => tick_alone rs rt
                end
              = {| now := step w e; callbacks := [] |}).
  { destruct e as [u|r|rs rt]; [reflexivity|reflexivity|].
    now apply tick_alone_is_tick. }
  rewrite E. change (run w (e :: evs)) with (run (step w e) evs).
  apply IH. now apply sound_step.
Qed.

End InFlight.

(** ** Two callbacks of one timer *)

Section Overlap.

Lemma nth_error_after {A : Type} (l r : list A) (x : A) :
  nth_error (l ++ x :: r) (length l) = Some x.
Proof. induction l as [|y l IH]; [reflexivity|exact IH]. Qed.

Lemma replace_nth_after {A : Type} (l r : list A) (x y : A) :
  replace_nth (length l) y (l ++ x :: r) = l ++ y :: r.
Proof. induction l as [|z l IH]; [reflexivity|]. cbn. now rewrite IH. Qed.

Lemma remove_nth_after {A : Type} (l r : list A) (x : A) :
  remove_nth (length l) (l ++ x :: r) = l ++ r.
Proof. induction l as [|z l IH]; [reflexivity|]. cbn. now rewrite IH. Qed.

(** The timer fires a second time before the requests of its first
    callback have settled: both callbacks belong to the same timer, and
    each numbers its batch from the count that timer closed over. *)
Lemma overlapping_callbacks (a0 : async) (t : interval)
  (s1 s2 : status_response) (d1 d2 : transcript_response) :
  sound (now a0) -> live (now a0) = Some t ->
  let k := length (callbacks a0) in
  let a := async_run a0
             [Fire; Fire;
              StatusSettles k (Resolved s1); TranscriptSettles k (Resolved d1);
              StatusSettles k (Resolved s2); TranscriptSettles k (Resolved d2)] in
  let n := length (sentences (st (now a0))) in
  callbacks a = callbacks a0 /\
  sentences (st (now a)) =
    sentences (st (now a0))
    ++ number_from (n + 1) (batch (Resolved s1) (Resolved d1))
    ++ number_from (n + 1) (batch (Resolved s2) (Resolved d2)).
Proof.
  intros S L k a n. destruct a0 as [w cbs]. cbn [now callbacks] in *.
  destruct (sound_closure w t S L) as (_ & _ & _ & Hlen & _).
  unfold a, async_run. cbn [fold_left async_step now callbacks].
  rewrite L. cbn [now callbacks].
  change (live (poll_fired t w)) with (live w). rewrite L.
  cbn [now callbacks]. rewrite <- app_assoc. cbn [app]. unfold k.
  rewrite nth_error_after. cbn [now callbacks]. rewrite replace_nth_after.
  rewrite nth_error_after. cbn [now callbacks]. rewrite remove_nth_after.
  rewrite nth_error_after. cbn [now callbacks]. rewrite replace_nth_after.
  rewrite nth_error_after. cbn [now callbacks]. rewrite remove_nth_after.
  split; [apply app_nil_r|].
  rewrite st_commit, poll_transcript_settled_sentences.
  rewrite st_commit.
  destruct (poll_status_settled_frame t (Resolved s2)
              (commit (poll_transcript_settled t s1 (Resolved d1)
                 (commit (poll_status_settled t (Resolved s1)
                    (poll_fired t (poll_fired t w)))))))
    as (_ & -> & _).
  rewrite st_commit, poll_transcript_settled_sentences.
  rewrite st_commit.
  destruct (poll_status_settled_frame t (Resolved s1) (poll_fired t (poll_fired t w)))
    as (_ & -> & _).
  change (st (poll_fired t (poll_fired t w))) with (st w).
  rewrite Hlen. fold n. now rewrite app_assoc.
Qed.

(** C1 (the code departs from the claim). The callback of the interval is
    an async function with two awaits, and [setInterval] does not wait for
    it: when the requests of one firing are still pending at the next
    firing, the two callbacks belong to the same timer and have closed
    over the same transcript. After a submission for
    https://youtu.be/ABCDEFGHIJK, the timer fires twice, then the requests
    of the first callback and those of the second settle, each transcript
    request (both were sent without a cursor) bringing the segments k1 and
    k2: the transcript has four sentences numbered 1, 2, 1, 2, not
    1, 2, 3, 4. In general, from any state the component reaches, two such
    callbacks both number their batch from the same count + 1. *)
Theorem overlapping_ticks_number_twice :
  (let a := async_run loaded
              [Typing session_url;
               Clicking (Resolved {| task_id := Some (js "task-1") |});
               Fire; Fire;
               StatusSettles 0 (Resolved processing_status);
               TranscriptSettles 0 (Resolved first_batch);
               StatusSettles 0 (Resolved processing_status);
               TranscriptSettles 0 (Resolved first_batch)] in
   callbacks a = [] /\
   requests (now a) =
     [Fetch (js "/api/start_processing") (Some session_url);
      Fetch (js "/api/task_status/task-1") None;
      Fetch (js "/api/task_status/task-1") None;
      Fetch (js "/api/transcript/task-1") None;
      Fetch (js "/api/transcript/task-1") None] /\
   map (fun y => key (fields y)) (sentences (st (now a)))
     = [js "k1"; js "k2"; js "k1"; js "k2"] /\
   map sentence_number (sentences (st (now a))) = [1; 2; 1; 2] /\
   ~ numbered (sentences (st (now a)))) /\
  (forall (evs : list async_event) (t : interval)
          (s1 s2 : status_response) (d1 d2 : transcript_response),
     let a0 := async_run loaded evs in
     live (now a0) = Some t ->
     let k := length (callbacks a0) in
     let a := async_run a0
                [Fire; Fire;
                 StatusSettles k (Resolved s1); TranscriptSettles k (Resolved d1);
                 StatusSettles k (Resolved s2); TranscriptSettles k (Resolved d2)] in
     let n := length (sentences (st (now a0))) in
     sentences (st (now a)) =
       sentences (st (now a0))
       ++ number_from (n + 1) (batch (Resolved s1) (Resolved d1))
       ++ number_from (n + 1) (batch (Resolved s2) (Resolved d2))).
Proof.
  split.
  - vm_compute. repeat split; try reflexivity. intros H. discriminate H.
  - intros evs t s1 s2 d1 d2 a0 L.
    apply (overlapping_callbacks a0 t s1 s2 d1 d2); [|exact L].
    apply sound_async_run, sound_mount.
Qed.

End Overlap.

(** * Further properties *)

(** ** The identifier and the iframe *)

Section Identifier.

Lemma word_char_not_terminator (c : code_unit) :
  word_char c = true -> line_terminator c = false.
Proof.
  unfold word_char, line_terminator. intros H.
  destruct (N.eqb_spec c 10) as [->|]; [discriminate H|].
  destruct (N.eqb_spec c 13) as [->|]; [discriminate H|].
  destruct (N.eqb_spec c 8232) as [->|]; [discriminate H|].
  destruct (N.eqb_spec c 8233) as [->|]; [discriminate H|].
  reflexivity.
Qed.

Lemma shape_one_line (d : jsstring) : shape d -> one_line d.
Proof.
  intros [c Hc| |c Hc| | |]; unfold one_line; cbn;
    repeat apply Forall_cons; try apply Forall_nil; try reflexivity.
  - exact Hc.
  - now apply word_char_not_terminator.
Qed.

Lemma one_line_app (a b : jsstring) : one_line a -> one_line b -> one_line (a ++ b).
Proof. unfold one_line. intros. now apply Forall_app. Qed.

Lemma take_drop_while (p : code_unit -> bool) (s : jsstring) :
  s = take_while p s ++ drop_while p s.
Proof.
  induction s as [|c s IH]; [reflexivity|]. cbn.
  destruct (p c); [cbn; now rewrite <- IH|reflexivity].
Qed.

Lemma take_while_all (p : code_unit -> bool) (s : jsstring) :
  Forall (fun c => p c = true) (take_while p s).
Proof.
  induction s as [|c s IH]; cbn; [constructor|].
  destruct (p c) eqn:E; [now constructor|constructor].
Qed.

Lemma take_while_id (p : code_unit -> bool) (s : jsstring) :
  Forall (fun c => p c = true) s -> take_while p s = s.
Proof.
  induction 1 as [|c s Hc _ IH]; [reflexivity|]. cbn. now rewrite Hc, IH.
Qed.

(** What stops a token, if anything follows it. *)
Lemma drop_while_head (p : code_unit -> bool) (s : jsstring) :
  match drop_while p s with
  | [] => True
  | c :: _ => p c = false
  end.
Proof.
  induction s as [|c s IH]; cbn; [exact I|].
  destruct (p c) eqn:E; [exact IH|exact E].
Qed.

Lemma token_class_char (c : code_unit) :
  atom_matches token_class c = true <-> c <> 35%N /\ c <> 38%N /\ c <> 63%N.
Proof.
  cbn. rewrite negb_true_iff, !orb_false_iff.
  rewrite !N.eqb_neq. tauto.
Qed.

(** A one-line prefix does not change what follows the last shape. *)
Lemma after_last_shape_prefix (before s a : jsstring) :
  one_line before -> after_last_shape s = Some a ->
  after_last_shape (before ++ s) = Some a.
Proof.
  intros Hb Hs. induction Hb as [|c before Hc _ IH]; [exact Hs|].
  cbn [app after_last_shape]. now rewrite Hc, IH.
Qed.

(** No shape starts inside an identifier that was extracted. *)
Lemma identifier_has_no_shape (url id : jsstring) :
  extractVideoId url = Normal (Some id) -> after_last_shape id = None.
Proof.
  intros H. apply extractVideoId_Some in H as [(before & d & a & E & Hb & Hd & Ht & Hlast) _].
  destruct (after_last_shape id) as [a'|] eqn:Ea; [|reflexivity].
  destruct (after_last_shape_Some _ _ Ea) as (b' & d' & E' & Hb' & Hd' & _).
  assert (Ha : a = id ++ drop_while (atom_matches token_class) a).
  { rewrite <- Ht. apply take_drop_while. }
  assert (L := Hlast ((before ++ d) ++ b') d' (a' ++ drop_while (atom_matches token_class) a)).
  rewrite !length_app in L.
  assert (length d <> 0) by (destruct d; [now apply shape_nonempty in Hd|discriminate]).
  exfalso. enough (length before + length d + length b' <= length before) by lia.
  apply L.
  - rewrite E, Ha at 1. rewrite E'. now rewrite <- !app_assoc.
  - apply one_line_app; [apply one_line_app|]; auto using shape_one_line.
  - exact Hd'.
Qed.

Lemma embed_src_after_last_shape (id : jsstring) :
  after_last_shape id = None -> after_last_shape (embed_src id) = Some id.
Proof.
  intros H. unfold embed_src.
  change (js "https://www.youtube.com/embed/")
    with (js "https://www.youtube.com/" ++ js "embed/").
  rewrite <- app_assoc. apply after_last_shape_prefix.
  - unfold one_line. repeat constructor.
  - cbn. rewrite H. reflexivity.
Qed.

Lemma embed_src_extracts (url id : jsstring) :
  extractVideoId url = Normal (Some id) ->
  extractVideoId (embed_src id) = Normal (Some id).
Proof.
  intros H. pose proof (identifier_has_no_shape _ _ H) as Hn.
  apply extractVideoId_Some in H as [(before & d & a & _ & _ & _ & Ht & _) L].
  rewrite extractVideoId_after_last_shape, (embed_src_after_last_shape _ Hn).
  assert (T : token_of id = id).
  { rewrite <- Ht. apply take_while_id. fold (token_of a). rewrite Ht.
    rewrite <- Ht. apply take_while_all. }
  rewrite T. apply Nat.eqb_eq in L. now rewrite L.
Qed.

(** X1. Whenever the video block is rendered, the src of its iframe is the
    embed link of the identifier found in the URL, and the extraction finds
    the same identifier again in that src. *)
Theorem rendered_src_round_trip (s : state) (v : view) (src : jsstring) :
  render s = Normal v ->
  video_src v = Some src ->
  exists id,
    extractVideoId (url s) = Normal (Some id) /\
    src = embed_src id /\
    extractVideoId src = Normal (Some id).
Proof.
  unfold render. intros R V.
  destruct (extractVideoId (url s)) as [[[|c id]|]|] eqn:E; try discriminate R;
    injection R as <-; cbn in V; try discriminate V.
  injection V as <-. exists (c :: id). split; [reflexivity|].
  split; [reflexivity|]. exact (embed_src_extracts _ _ E).
Qed.

Lemma rendered_src_round_trip_witness :
  exists id,
    extractVideoId (js "https://www.youtube.com/watch?v=dQw4w9WgXcQ&t=42")
      = Normal (Some id) /\
    embed_src (js "dQw4w9WgXcQ") = embed_src id /\
    extractVideoId (embed_src (js "dQw4w9WgXcQ")) = Normal (Some id).
Proof.
  apply (rendered_src_round_trip
           {| url := js "https://www.youtube.com/watch?v=dQw4w9WgXcQ&t=42";
              taskId := None; sentences := []; lastKey := None;
              isProcessing := false; progress := 0%float |}
           {| input_value := js "https://www.youtube.com/watch?v=dQw4w9WgXcQ&t=42";
              input_disabled := false; button_disabled := false;
              button_label := js "Start"; progress_bar := None;
              video_src := Some (embed_src (js "dQw4w9WgXcQ"));
              transcript := None |}
           (embed_src (js "dQw4w9WgXcQ")));
    vm_compute; reflexivity.
Defined.

(** X2. An identifier that is returned is a piece of the URL: 11 characters
    free of '#', '&' and '?', standing right after a recognized shape that
    starts on the first line, and followed by the end of the URL or by one
    of these three characters. *)
Theorem extracted_identifier_in_url (url id : jsstring) :
  extractVideoId url = Normal (Some id) ->
  exists before d after,
    url = before ++ d ++ id ++ after /\
    one_line before /\ shape d /\
    length id = 11 /\
    Forall (fun c => c <> 35%N /\ c <> 38%N /\ c <> 63%N) id /\
    match after with
    | [] => True
    | c :: _ => c = 35%N \/ c = 38%N \/ c = 63%N
    end.
Proof.
  intros H.
  apply extractVideoId_Some in H as [(before & d & a & E & Hb & Hd & Ht & _) L].
  exists before, d, (drop_while (atom_matches token_class) a).
  split; [|split; [exact Hb|split; [exact Hd|split; [exact L|split]]]].
  - rewrite E, <- Ht. f_equal. f_equal. apply take_drop_while.
  - rewrite <- Ht. unfold token_of.
    eapply Forall_impl; [|apply take_while_all].
    intros c Hc. now apply token_class_char.
  - pose proof (drop_while_head (atom_matches token_class) a) as Hh.
    destruct (drop_while _ a) as [|c r]; [exact I|].
    destruct (N.eqb_spec c 35); [now left|].
    destruct (N.eqb_spec c 38); [now right; left|].
    destruct (N.eqb_spec c 63); [now right; right|].
    assert (atom_matches token_class c = true) by now apply token_class_char.
    congruence.
Qed.

Lemma extracted_identifier_in_url_witness :
  exists before d after,
    js "https://www.youtube.com/watch?v=dQw4w9WgXcQ&t=42"
      = before ++ d ++ js "dQw4w9WgXcQ" ++ after /\
    one_line before /\ shape d /\
    length (js "dQw4w9WgXcQ") = 11 /\
    Forall (fun c => c <> 35%N /\ c <> 38%N /\ c <> 63%N) (js "dQw4w9WgXcQ") /\
    match after with
    | [] => True
    | c :: _ => c = 35%N \/ c = 38%N \/ c = 63%N
    end.
Proof.
  apply (extracted_identifier_in_url
           (js "https://www.youtube.com/watch?v=dQw4w9WgXcQ&t=42")
           (js "dQw4w9WgXcQ")).
  vm_compute. reflexivity.
Defined.

End Identifier.

(** ** Progress and rendering *)

Section Edges.






(** X3. Rendering never throws, and its three conditional blocks follow
    the state: the video block is there exactly when the URL yields an
    identifier, with the embed link of that identifier as src; the progress
    bar exactly while processing; the transcript block exactly when there is
    a sentence, with one card per sentence, in order. *)
Theorem render_blocks (s : state) :
  exists v,
    render s = Normal v /\
    (video_src v = match extractVideoId (url s) with
                   | Normal (Some id) => Some (embed_src id)
                   | _ => None
                   end) /\
    (progress_bar v = if isProcessing s then Some (progress s) else None) /\
    (transcript v = match sentences s with
                    | [] => None
                    | _ :: _ => Some (map card_of (sentences s))
                    end) /\
    input_disabled v = isProcessing s /\
    button_disabled v = (isProcessing s || match url s with [] => true | _ => false end)%bool.
Proof.
  unfold render. rewrite extractVideoId_after_last_shape.
  destruct (after_last_shape (url s)) as [a|].
  - destruct (Nat.eqb_spec (length (token_of a)) 11) as [L|].
    + eexists. split; [reflexivity|]. cbn.
      destruct (token_of a) as [|c id]; [discriminate L|].
      repeat split; try reflexivity;
        [now destruct (sentences s)|now destruct (url s)].
    + eexists. split; [reflexivity|]. cbn.
      repeat split; try reflexivity;
        [now destruct (sentences s)|now destruct (url s)].
  - eexists. split; [reflexivity|]. cbn.
    repeat split; try reflexivity;
      [now destruct (sentences s)|now destruct (url s)].
Qed.

End Edges.

(** ** Submission and the timer *)

Section SubmissionSteps.

Lemma commit_changed (w : world) (d : deps) (c : option nat) :
  effect_run w = Some (d, c) -> d <> deps_of (st w) ->
  commit w = effect_body (cleanup w).
Proof.
  intros E N. unfold commit. rewrite E.
  destruct (deps_eqb d (deps_of (st w))) eqn:Ed; [|reflexivity].
  now apply deps_eqb_eq in Ed.
Qed.

Lemma effect_body_live (w : world) (x : code_unit) (tid : jsstring) :
  taskId (st w) = Some (x :: tid) ->
  live (effect_body w) =
  Some {| interval_id := next_id w; delay := 2500; cl_taskId := x :: tid;
          cl_lastKey := lastKey (st w); cl_sentences := sentences (st w) |}.
Proof. intros E. unfold effect_body. now rewrite E. Qed.

(** [startProcessing] with a URL, step by step. *)
Lemma startProcessing_steps (r : fetched start_response) (w : world)
  (c : code_unit) (u : jsstring) :
  url (st w) = c :: u ->
  exists w1 w2,
    w1 = commit (with_st submitting w) /\
    startProcessing r w = commit w2 /\
    effect_run w2 = effect_run w1 /\ live w2 = live w1 /\
    next_id w2 = next_id w1 /\
    st w2 =
    match r with
    | Resolved data =>
        {| url := c :: u; taskId := task_id data; sentences := [];
           lastKey := None; isProcessing := true; progress := progress (st w) |}
    | Rejected =>
        {| url := c :: u; taskId := taskId (st w); sentences := [];
           lastKey := None; isProcessing := false; progress := progress (st w) |}
    end.
Proof.
  intros Hu. unfold startProcessing. rewrite Hu.
  eexists. eexists. split; [reflexivity|]. split.
  - cbv zeta. reflexivity.
  - destruct r as [data|]; cbn -[commit js]; rewrite !st_commit; cbn;
      rewrite ?Hu; repeat split; reflexivity.
Qed.


End SubmissionSteps.

(** ** Every history, callbacks overlapping or not *)

Section Histories.

Lemma reachable_sound (evs : list async_event) : sound (now (async_run loaded evs)).
Proof. apply sound_async_run, sound_mount. Qed.

(** X5. Timers do not leak: at every point of every history, callbacks
    overlapping or not, the intervals that were set and not yet cleared,
    according to the trace of setInterval and clearInterval calls, are
    exactly the live timer, so at most one interval runs. *)
Theorem one_interval_running (evs : list async_event) :
  let w := now (async_run loaded evs) in
  running_intervals (trace w) = live_ids w /\
  length (running_intervals (trace w)) <= 1.
Proof.
  intros w. destruct (reachable_sound evs) as [[_ [R _]] _].
  fold w in R. split; [exact R|]. rewrite R. unfold live_ids.
  destruct (live w); cbn; lia.
Qed.

(** X6. When the component is discarded after any history, the cleanup of
    the effect clears the live timer: no interval is left running. *)
Theorem unmount_stops_polling (evs : list async_event) :
  let w := unmount (now (async_run loaded evs)) in
  live w = None /\ running_intervals (trace w) = [].
Proof.
  intros w. destruct (reachable_sound evs) as [O _].
  assert (L : live w = None) by (apply cleanup_clears; now destruct O).
  split; [exact L|].
  destruct (orderly_cleanup _ O) as [_ [R _]].
  fold (unmount (now (async_run loaded evs))) in R.
  fold w in R. rewrite R. unfold live_ids. now rewrite L.
Qed.

(** X7. A live timer always belongs to the current render: its callback
    holds the stored task handle, which is not empty, the current cursor
    and the current number of sentences, and its delay is 2500 ms; without
    a task handle no timer is live. *)
Theorem timer_belongs_to_task (evs : list async_event) :
  let w := now (async_run loaded evs) in
  (forall t, live w = Some t ->
     taskId (st w) = Some (cl_taskId t) /\ cl_taskId t <> [] /\
     cl_lastKey t = lastKey (st w) /\
     length (cl_sentences t) = length (sentences (st w)) /\
     delay t = 2500) /\
  (truthy (taskId (st w)) = false -> live w = None).
Proof.
  intros w.
  assert (F : forall t, live w = Some t ->
     taskId (st w) = Some (cl_taskId t) /\ cl_taskId t <> [] /\
     cl_lastKey t = lastKey (st w) /\
     length (cl_sentences t) = length (sentences (st w)) /\ delay t = 2500).
  { intros t L.
    destruct (sound_closure w t (reachable_sound evs) L)
      as (H1 & H2 & H3 & H4 & H5 & _). auto. }
  split; [exact F|].
  intros Ht. destruct (live w) as [t|] eqn:L; [|reflexivity].
  destruct (F t eq_refl) as (E & Hne & _). rewrite E in Ht.
  destruct (cl_taskId t); [contradiction|discriminate].
Qed.

(** X8. As long as no two callbacks overlap, the transcript is numbered
    1, 2, ..., N: a history in which the requests of every firing settle
    before the next event is a history of [step], and leaves nothing in
    flight. *)
Theorem numbering_one_at_a_time (evs : list event) :
  let a := async_run loaded (one_at_a_time evs) in
  callbacks a = [] /\
  now a = run mount evs /\
  map sentence_number (sentences (st (now a)))
    = seq 1 (length (sentences (st (now a)))).
Proof.
  intros a. unfold a, loaded. rewrite (one_at_a_time_run evs mount sound_mount).
  cbn [now callbacks]. split; [reflexivity|]. split; [reflexivity|].
  destruct (run_consistent evs mount mount_consistent) as (_ & _ & N). exact N.
Qed.

Lemma async_step_cursor (a : async) (e : async_event) :
  cursor_kept e ->
  lastKey (st (now a)) = last_key_of (sentences (st (now a))) ->
  lastKey (st (now (async_step a e)))
  = last_key_of (sentences (st (now (async_step a e)))).
Proof.
  intros K H. destruct e as [u|r| |i rs|i rt]; cbn [async_step now step].
  - destruct (isProcessing (st (now a))); [exact H|]. rewrite st_commit. exact H.
  - destruct (isProcessing (st (now a))); [exact H|].
    destruct (url (st (now a))) as [|c u] eqn:Hu.
    + unfold startProcessing. rewrite Hu. exact H.
    + destruct (startProcessing_steps r (now a) c u Hu)
        as (w1 & w2 & _ & E & _ & _ & _ & S2).
      rewrite E, st_commit, S2. now destruct r.
  - destruct (live (now a)); exact H.
  - destruct (nth_error (callbacks a) i) as [[t [s|]]|]; try exact H.
    cbn [now]. rewrite st_commit.
    destruct (poll_status_settled_frame t rs (now a)) as (_ & -> & -> & _).
    exact H.
  - destruct (nth_error (callbacks a) i) as [[t [s|]]|]; try exact H.
    cbn [now]. rewrite st_commit.
    rewrite poll_transcript_settled_lastKey, poll_transcript_settled_sentences.
    unfold cursor_kept, cursor_is_last_key in K. cbn [snd] in K. unfold batch.
    destruct rt as [d|]; [|now rewrite app_nil_r].
    destruct (data_sentences d) as [[|x l]|]; try now rewrite app_nil_r.
    now rewrite last_key_of_append.
Qed.

(** X9. If every transcript response that brings sentences has the key of
    its last sentence as last_key, then at every point of every history,
    submissions and overlapping callbacks included, the cursor is the key
    of the last entry of the transcript, and null while the transcript is
    empty. *)
Theorem cursor_follows_transcript (evs : list async_event) :
  Forall cursor_kept evs ->
  let w := now (async_run loaded evs) in
  lastKey (st w) = last_key_of (sentences (st w)).
Proof.
  intros F. cbv zeta.
  assert (G : forall a,
             lastKey (st (now a)) = last_key_of (sentences (st (now a))) ->
             lastKey (st (now (async_run a evs)))
             = last_key_of (sentences (st (now (async_run a evs))))).
  { induction F as [|e evs K _ IH]; intros a H; [exact H|].
    cbn. apply IH. now apply async_step_cursor. }
  apply G. reflexivity.
Qed.

Lemma cursor_follows_transcript_witness :
  let w := now (async_run loaded
                  [Typing session_url;
                   Clicking (Resolved {| task_id := Some (js "task-1") |});
                   Fire; Fire;
                   StatusSettles 0 (Resolved processing_status);
                   TranscriptSettles 0 (Resolved first_batch);
                   StatusSettles 0 (Resolved processing_status);
                   TranscriptSettles 0 (Resolved second_batch)]) in
  lastKey (st w) = last_key_of (sentences (st w)).
Proof.
  apply (cursor_follows_transcript
           [Typing session_url;
            Clicking (Resolved {| task_id := Some (js "task-1") |});
            Fire; Fire;
            StatusSettles 0 (Resolved processing_status);
            TranscriptSettles 0 (Resolved first_batch);
            StatusSettles 0 (Resolved processing_status);
            TranscriptSettles 0 (Resolved second_batch)]).
  repeat constructor.
Defined.

Lemma async_step_grows (a : async) (e : async_event) :
  no_submission e ->
  exists more,
    sentences (st (now (async_step a e))) = sentences (st (now a)) ++ more.
Proof.
  intros K. destruct e as [u|r| |i rs|i rt]; cbn [async_step now step].
  - exists []. rewrite app_nil_r.
    destruct (isProcessing (st (now a))); [reflexivity|]. now rewrite st_commit.
  - contradiction.
  - exists []. rewrite app_nil_r. now destruct (live (now a)).
  - exists []. rewrite app_nil_r.
    destruct (nth_error (callbacks a) i) as [[t [s|]]|]; try reflexivity.
    cbn [now]. rewrite st_commit.
    now destruct (poll_status_settled_frame t rs (now a)) as (_ & -> & _).
  - destruct (nth_error (callbacks a) i) as [[t [s|]]|];
      try (exists []; now rewrite app_nil_r).
    cbn [now]. rewrite st_commit, poll_transcript_settled_sentences.
    eexists. reflexivity.
Qed.

(** X10. Between submissions the transcript only grows at its end: no
    event other than a click on Start removes, reorders or renumbers an
    entry that is already shown, whatever callbacks are in flight. *)
Theorem transcript_only_grows (a : async) (evs : list async_event) :
  Forall no_submission evs ->
  exists more,
    sentences (st (now (async_run a evs))) = sentences (st (now a)) ++ more.
Proof.
  intros F. revert a. induction F as [|e evs K _ IH]; intros a.
  - exists []. now rewrite app_nil_r.
  - cbn. destruct (IH (async_step a e)) as [m2 E2].
    destruct (async_step_grows a e K) as [m1 E1].
    exists (m1 ++ m2). unfold async_run in E2. rewrite E2, E1. now rewrite app_assoc.
Qed.

Lemma transcript_only_grows_witness :
  exists more,
    sentences (st (now (async_run
      (async_run loaded
         [Typing session_url;
          Clicking (Resolved {| task_id := Some (js "task-1") |});
          Fire;
          StatusSettles 0 (Resolved processing_status);
          TranscriptSettles 0 (Resolved first_batch)])
      [Fire; Typing (js "x");
       StatusSettles 0 (Resolved completed_status);
       TranscriptSettles 0 (Resolved second_batch)])))
    = sentences (st (now (async_run loaded
         [Typing session_url;
          Clicking (Resolved {| task_id := Some (js "task-1") |});
          Fire;
          StatusSettles 0 (Resolved processing_status);
          TranscriptSettles 0 (Resolved first_batch)]))) ++ more.
Proof.
  apply (transcript_only_grows
           (async_run loaded
              [Typing session_url;
               Clicking (Resolved {| task_id := Some (js "task-1") |});
               Fire;
               StatusSettles 0 (Resolved processing_status);
               TranscriptSettles 0 (Resolved first_batch)])
           [Fire; Typing (js "x");
            StatusSettles 0 (Resolved completed_status);
            TranscriptSettles 0 (Resolved second_batch)]).
  repeat constructor.
Defined.

End Histories.

Section Submissions.








(** X14. A transcript response with sentences, whichever callback in
    flight receives it, is appended to the transcript shown now and re-arms
    the polling for the task stored now: the timer of the last render is
    cleared and a freshly created one is live, whose callback holds the
    current task handle, the last_key of the response and the transcript
    with the new sentences. The sentences are numbered from the count the
    receiving callback closed over. *)
Theorem appending_callback_rearms (evs : list async_event) (i : nat)
  (t : interval) (s : status_response) (d : transcript_response)
  (x : server_sentence) (l : list server_sentence)
  (c : code_unit) (tid : jsstring) :
  let a := async_run loaded evs in
  nth_error (callbacks a) i = Some {| cb_timer := t; cb_status := Some s |} ->
  data_sentences d = Some (x :: l) ->
  taskId (st (now a)) = Some (c :: tid) ->
  let a' := async_step a (TranscriptSettles i (Resolved d)) in
  exists t',
    live (now a') = Some t' /\
    interval_id t' = next_id (now a) /\
    cl_taskId t' = c :: tid /\
    cl_lastKey t' = data_last_key d /\
    cl_sentences t' = sentences (st (now a')) /\
    sentences (st (now a')) =
      sentences (st (now a))
      ++ number_from (length (cl_sentences t) + 1) (x :: l).
Proof.
  intros a Hi Hd Ht a'.
  destruct (reachable_sound evs) as (_ & (c0 & R0)). fold a in R0.
  set (w := now a) in *.
  set (w1 := poll_transcript_settled t s (Resolved d) w).
  destruct (poll_transcript_settled_frame t s (Resolved d) w)
    as (T1 & _ & _ & Er1 & Hn1).
  fold w1 in T1, Er1, Hn1.
  assert (S1 : sentences (st w1) =
               sentences (st w) ++ number_from (length (cl_sentences t) + 1) (x :: l)).
  { unfold w1. rewrite poll_transcript_settled_sentences. unfold batch. now rewrite Hd. }
  assert (K1 : lastKey (st w1) = data_last_key d).
  { unfold w1. rewrite poll_transcript_settled_lastKey. unfold batch. now rewrite Hd. }
  assert (Ec : commit w1 = effect_body (cleanup w1)).
  { apply (commit_changed w1 (deps_of (st w)) c0); [now rewrite Er1|].
    unfold deps_of. intros [= _ _ H]. rewrite S1, length_app, number_from_length in H.
    cbn in H. lia. }
  assert (Ew : now a' = effect_body (cleanup w1)).
  { unfold a'. cbn [async_step]. rewrite Hi. cbn [now]. exact Ec. }
  assert (Nc : next_id (cleanup w1) = next_id w).
  { unfold cleanup. rewrite Er1, R0. destruct c0; cbn; exact Hn1. }
  exists {| interval_id := next_id (cleanup w1); delay := 2500;
            cl_taskId := c :: tid; cl_lastKey := lastKey (st w1);
            cl_sentences := sentences (st w1) |}.
  assert (Sw : st (now a') = st w1) by (rewrite Ew; now rewrite st_effect_body, st_cleanup).
  split.
  - rewrite Ew. rewrite (effect_body_live _ c tid); rewrite st_cleanup; [reflexivity|].
    now rewrite T1.
  - cbn [interval_id cl_taskId cl_lastKey cl_sentences]. rewrite Sw.
    repeat split; auto.
Qed.


Lemma appending_callback_rearms_witness :
  let a := async_run loaded
             [Typing session_url;
              Clicking (Resolved {| task_id := Some (js "task-1") |});
              Fire; Fire;
              StatusSettles 0 (Resolved completed_status);
              TranscriptSettles 0 (Resolved nothing_new);
              Clicking (Resolved {| task_id := Some (js "task-2") |});
              StatusSettles 0 (Resolved completed_status)] in
  let a' := async_step a (TranscriptSettles 0 (Resolved first_batch)) in
  exists t',
    live (now a') = Some t' /\
    interval_id t' = next_id (now a) /\
    cl_taskId t' = js "task-2" /\
    cl_lastKey t' = data_last_key first_batch /\
    cl_sentences t' = sentences (st (now a')) /\
    sentences (st (now a')) =
      sentences (st (now a))
      ++ number_from (length (@nil sentence) + 1)
           [segment "k1" "00:00:01"; segment "k2" "00:01:05"].
Proof.
  apply (appending_callback_rearms
           [Typing session_url;
            Clicking (Resolved {| task_id := Some (js "task-1") |});
            Fire; Fire;
            StatusSettles 0 (Resolved completed_status);
            TranscriptSettles 0 (Resolved nothing_new);
            Clicking (Resolved {| task_id := Some (js "task-2") |});
            StatusSettles 0 (Resolved completed_status)]
           0
           {| interval_id := 1; delay := 2500; cl_taskId := js "task-1";
              cl_lastKey := None; cl_sentences := [] |}
           completed_status first_batch
           (segment "k1" "00:00:01") [segment "k2" "00:01:05"]
           116%N (tl (js "task-2"))).
  - vm_compute. reflexivity.
  - reflexivity.
  - vm_compute. reflexivity.
Defined.

Lemma poll_transcript_settled_completed (t : interval) (s : status_response)
  (d : transcript_response) (w : world) :
  status s = js "completed" ->
  let w1 := poll_transcript_settled t s (Resolved d) w in
  isProcessing (st w1) = false /\
  live w1 = live (clearInterval (interval_id t) w) /\
  (batch (Resolved s) (Resolved d) = [] -> deps_of (st w1) = deps_of (st w)).
Proof.
  intros Hs.
  assert (E : jsstring_eqb (status s) (js "completed") = true)
    by now apply jsstring_eqb_eq.
  revert E. unfold batch, poll_transcript_settled, settled.
  poll_unfold; poll_paths; intros E; try discriminate E;
    (split; [reflexivity|]); (split; [reflexivity|]);
    intros B; try discriminate B; reflexivity.
Qed.

(** X15. A callback of an earlier timer that is still in flight when its
    task is reported completed clears the Processing Flag of whatever task
    is current, and does not stop the current timer: when its transcript
    response brings nothing, the flag is false, the progress bar is gone
    and the input is enabled, while the live timer goes on polling. *)
Theorem stale_completion_clears_flag (evs : list async_event) (i : nat)
  (t t0 : interval) (s : status_response) (d : transcript_response) :
  let a := async_run loaded evs in
  nth_error (callbacks a) i = Some {| cb_timer := t; cb_status := Some s |} ->
  status s = js "completed" ->
  data_sentences d = Some [] ->
  live (now a) = Some t0 ->
  interval_id t0 <> interval_id t ->
  let a' := async_step a (TranscriptSettles i (Resolved d)) in
  isProcessing (st (now a')) = false /\
  live (now a') = Some t0 /\
  taskId (st (now a')) = taskId (st (now a)) /\
  sentences (st (now a')) = sentences (st (now a)).
Proof.
  intros a Hi Hs Hd L Hne a'.
  destruct (reachable_sound evs) as (_ & (c0 & R0)). fold a in R0.
  destruct (poll_transcript_settled_completed t s d (now a) Hs) as (P1 & L1 & D1).
  destruct (poll_transcript_settled_frame t s (Resolved d) (now a))
    as (T1 & _ & _ & Er1 & _).
  assert (B : batch (Resolved s) (Resolved d) = []) by (unfold batch; now rewrite Hd).
  assert (Ec : now a' = poll_transcript_settled t s (Resolved d) (now a)).
  { unfold a'. cbn [async_step]. rewrite Hi. cbn [now].
    apply (commit_same_deps _ c0). now rewrite Er1, (D1 B). }
  rewrite Ec. split; [exact P1|]. split.
  - rewrite L1. unfold clearInterval. cbn [live]. rewrite L.
    destruct (Nat.eqb_spec (interval_id t0) (interval_id t)); [contradiction|reflexivity].
  - split; [exact T1|].
    rewrite poll_transcript_settled_sentences, B. apply app_nil_r.
Qed.

Lemma stale_completion_clears_flag_witness :
  let a := async_run loaded
             [Typing session_url;
              Clicking (Resolved {| task_id := Some (js "task-1") |});
              Fire; Fire;
              StatusSettles 0 (Resolved completed_status);
              TranscriptSettles 0 (Resolved nothing_new);
              Clicking (Resolved {| task_id := Some (js "task-2") |});
              StatusSettles 0 (Resolved completed_status)] in
  let a' := async_step a (TranscriptSettles 0 (Resolved nothing_new)) in
  isProcessing (st (now a')) = false /\
  live (now a') = Some {| interval_id := 2; delay := 2500; cl_taskId := js "task-2";
                          cl_lastKey := None; cl_sentences := [] |} /\
  taskId (st (now a')) = taskId (st (now a)) /\
  sentences (st (now a')) = sentences (st (now a)).
Proof.
  apply (stale_completion_clears_flag
           [Typing session_url;
            Clicking (Resolved {| task_id := Some (js "task-1") |});
            Fire; Fire;
            StatusSettles 0 (Resolved completed_status);
            TranscriptSettles 0 (Resolved nothing_new);
            Clicking (Resolved {| task_id := Some (js "task-2") |});
            StatusSettles 0 (Resolved completed_status)]
           0
           {| interval_id := 1; delay := 2500; cl_taskId := js "task-1";
              cl_lastKey := None; cl_sentences := [] |}
           {| interval_id := 2; delay := 2500; cl_taskId := js "task-2";
              cl_lastKey := None; cl_sentences := [] |}
           completed_status nothing_new).
  - vm_compute. reflexivity.
  - reflexivity.
  - reflexivity.
  - vm_compute. reflexivity.
  - cbn. discriminate.
Defined.

(** The race of a superseded task, evaluated: a callback of task-1 is still
    in flight when task-2 is submitted; its transcript response puts the
    sentences of task-1 into the transcript of task-2, moves the cursor of
    task-2 to a key of task-1 and clears the Processing Flag. *)
Example superseded_task_writes :
  let a := async_run loaded
             [Typing session_url;
              Clicking (Resolved {| task_id := Some (js "task-1") |});
              Fire; Fire;
              StatusSettles 0 (Resolved completed_status);
              TranscriptSettles 0 (Resolved nothing_new);
              Clicking (Resolved {| task_id := Some (js "task-2") |});
              StatusSettles 0 (Resolved completed_status);
              TranscriptSettles 0 (Resolved first_batch)] in
  taskId (st (now a)) = Some (js "task-2") /\
  map (fun y => key (fields y)) (sentences (st (now a))) = [js "k1"; js "k2"] /\
  lastKey (st (now a)) = Some (js "k2") /\
  isProcessing (st (now a)) = false /\
  option_map cl_taskId (live (now a)) = Some (js "task-2") /\
  option_map cl_lastKey (live (now a)) = Some (Some (js "k2")).
Proof. vm_compute. repeat split; reflexivity. Qed.

End Submissions.
